(** * connpool: a shallow embedding of the connection pool and its properties

    The development follows the Go sources: the counters and the statistics
    view over them, the declarations of [Config], [Factory], [Pool] and
    [Stats], the connection wrapper (conn.go) and the pool (pool.go).

    Modelling choices.
    - Go's [int]/[int64] values are integers of [Z]; counter overflow is not
      modelled (the counters count connections and calls).
    - Pointers are addresses: a [*conn] is an index into the world's [heap],
      a [*pool] an index into the world's [pools].  All mutation goes through
      those two stores, so two holders of one wrapper see each other's writes.
    - The buffered channel [chan *conn] is a FIFO list with a capacity; a nil
      channel is [None].
    - The factory is an oracle: its k-th invocation yields [factory k].
    - [time.Now()] is a parameter [now] (Unix nanoseconds) of the operation
      that reads the clock.
    - Operations run one at a time (the sequential semantics of the code); the
      mutexes are therefore not represented.
    - A run either finishes ([Done]), panics on a nil dereference ([Panic]),
      blocks forever on a channel send ([Block]), or exhausts the recursion
      budget given to it ([OutOfFuel]). *)

From Stdlib Require Import ZArith Lia DecimalString.
From Stdlib Require DecimalPos DecimalZ.
From stdpp Require Import base list strings.

Local Open Scope Z_scope.

(** ** Counters and statistics *)

(** [type count struct { v int64 }]: the stored value. *)
Definition count := Z.

Definition newCounter : count := 0.

(** [inc], [dec] and [reset] give the value stored after the call; [inc] and
    [dec] return that same value to the caller, [reset] returns the old one
    (no caller uses it). *)
Definition inc (c : count) : count := c + 1.
Definition dec (c : count) : count := c - 1.
Definition val (c : count) : Z := c.
Definition reset (c : count) : count := 0.

(** [type stats struct { a availabler; size, request, success counter }].
    The [a] field points back to the pool holding the record; it is implicit
    here: the view functions below take the pool. *)
Record stats := Stats_ {
  size : count;
  request : count;
  success : count;
}.

Definition newStats : stats :=
  {| size := newCounter; request := newCounter; success := newCounter |}.

Definition stats_reset (s : stats) : stats :=
  {| size := reset (size s); request := reset (request s); success := reset (success s) |}.

Definition set_size (f : count → count) (s : stats) : stats :=
  {| size := f (size s); request := request s; success := success s |}.
Definition set_request (f : count → count) (s : stats) : stats :=
  {| size := size s; request := f (request s); success := success s |}.
Definition set_success (f : count → count) (s : stats) : stats :=
  {| size := size s; request := request s; success := f (success s) |}.

(** ** Data: configuration, wrapper, pool, world *)

(** Addresses of wrappers and of pools. *)
Abbreviation addr := nat.
Abbreviation pool_id := nat.

(** A transport connection made by the factory. Only its [Close] matters to
    the pool: [close_err] is what that call returns. *)
Record rawconn := RawConn {
  rid : nat;
  close_err : option string;
}.

(** Errors. [ErrNoFactory], [ErrInvalidMinMax], [ErrInvalidIncrement],
    [ErrExhausted] and [ErrInvalidConn] stand for the [fmt.Errorf] values
    "no connection factory provided", "invalid configuration, please check min
    and max values", "increment value can be the difference between min, max at
    most", "could not retrieve any connection" and "invalid conn, it is nil".
    [ErrExternal] is an error produced outside the package (by the factory or
    by a transport connection's [Close]); [ErrStop] is the joined message
    built by [Stop]. *)
Inductive error :=
| ErrClosed
| ErrNoFactory
| ErrInvalidMinMax
| ErrInvalidIncrement
| ErrExhausted
| ErrInvalidConn
| ErrExternal (msg : string)
| ErrStop (msg : string).

(** The [Error()] text of an error. *)
Definition Error_ (e : error) : string :=
  match e with
  | ErrClosed => "pool is closed"
  | ErrNoFactory => "no connection factory provided"
  | ErrInvalidMinMax => "invalid configuration, please check min and max values"
  | ErrInvalidIncrement => "increment value can be the difference between min, max at most"
  | ErrExhausted => "could not retrieve any connection"
  | ErrInvalidConn => "invalid conn, it is nil"
  | ErrExternal msg => msg
  | ErrStop msg => msg
  end.

(** What one factory invocation returns: [(net.Conn, error)]. *)
Inductive dialed :=
| Dialed (c : option rawconn)
| DialFailed (msg : string).

Definition Factory := nat → dialed.

Record Config := Config_ {
  MinSize : Z;
  MaxSize : Z;
  Increment : Z;
  IdleTimeout : Z;
}.

(** [type conn struct { lastUsed int64; p putter; unUsable bool; net.Conn }] *)
Record conn := Conn_ {
  lastUsed : Z;
  p : pool_id;
  unUsable : bool;
  Conn : option rawconn;
}.

(** A [net.Conn] interface value as callers hold it: nil, a wrapper of this
    package, or some other implementation. *)
Inductive netconn :=
| NilConn
| Wrapper (a : addr)
| Foreign (r : rawconn).

Record pool := Pool_ {
  name : string;
  cfg : Config;
  factory : Factory;
  fcalls : nat;                 (* invocations of [factory] so far *)
  conns : option (list addr);
  running : Z;
  pstats : stats;
}.

Record world := World {
  heap : list conn;
  pools : list pool;
  closed : list nat;            (* [rid] of every transport Close, oldest first *)
  connPoolCounter : count;
}.

Definition init_world : world :=
  {| heap := []; pools := []; closed := []; connPoolCounter := newCounter |}.

(** Field updates. *)
Definition set_name (s : string) (pl : pool) : pool :=
  {| name := s; cfg := cfg pl; factory := factory pl; fcalls := fcalls pl;
     conns := conns pl; running := running pl; pstats := pstats pl |}.
Definition set_fcalls (n : nat) (pl : pool) : pool :=
  {| name := name pl; cfg := cfg pl; factory := factory pl; fcalls := n;
     conns := conns pl; running := running pl; pstats := pstats pl |}.
Definition set_conns (q : option (list addr)) (pl : pool) : pool :=
  {| name := name pl; cfg := cfg pl; factory := factory pl; fcalls := fcalls pl;
     conns := q; running := running pl; pstats := pstats pl |}.
Definition set_running (r : Z) (pl : pool) : pool :=
  {| name := name pl; cfg := cfg pl; factory := factory pl; fcalls := fcalls pl;
     conns := conns pl; running := r; pstats := pstats pl |}.
Definition set_pstats (f : stats → stats) (pl : pool) : pool :=
  {| name := name pl; cfg := cfg pl; factory := factory pl; fcalls := fcalls pl;
     conns := conns pl; running := running pl; pstats := f (pstats pl) |}.

Definition set_lastUsed (t : Z) (c : conn) : conn :=
  {| lastUsed := t; p := p c; unUsable := unUsable c; Conn := Conn c |}.
Definition set_unUsable (b : bool) (c : conn) : conn :=
  {| lastUsed := lastUsed c; p := p c; unUsable := b; Conn := Conn c |}.

Definition with_heap (f : list conn → list conn) (w : world) : world :=
  {| heap := f (heap w); pools := pools w; closed := closed w;
     connPoolCounter := connPoolCounter w |}.
Definition with_pools (f : list pool → list pool) (w : world) : world :=
  {| heap := heap w; pools := f (pools w); closed := closed w;
     connPoolCounter := connPoolCounter w |}.
Definition with_closed (f : list nat → list nat) (w : world) : world :=
  {| heap := heap w; pools := pools w; closed := f (closed w);
     connPoolCounter := connPoolCounter w |}.
Definition with_counter (f : count → count) (w : world) : world :=
  {| heap := heap w; pools := pools w; closed := closed w;
     connPoolCounter := f (connPoolCounter w) |}.

(** ** Runs *)

Inductive outcome (A : Type) : Type :=
| Done (w : world) (x : A)
| Panic
| Block
| OutOfFuel.
Arguments Done {A} w x.
Arguments Panic {A}.
Arguments Block {A}.
Arguments OutOfFuel {A}.

Definition M (A : Type) : Type := world → outcome A.

Definition ret {A} (x : A) : M A := λ w, Done w x.
Definition bind {A B} (m : M A) (k : A → M B) : M B :=
  λ w, match m w with
       | Done w' x => k x w'
       | Panic => Panic
       | Block => Block
       | OutOfFuel => OutOfFuel
       end.

Notation "'do' x <- m ; k" := (bind m (λ x, k))
  (at level 10, x name, m at level 100, k at level 200).
Notation "m ;; k" := (bind m (λ _, k))
  (at level 100, k at level 200, right associativity).

Definition modify (f : world → world) : M unit := λ w, Done (f w) tt.

(** Dereferencing a [*pool] or a [*conn]. *)
Definition the_pool (pid : pool_id) : M pool :=
  λ w, match pools w !! pid with Some pl => Done w pl | None => Panic end.
Definition the_conn (a : addr) : M conn :=
  λ w, match heap w !! a with Some c => Done w c | None => Panic end.

Definition upd_pool (pid : pool_id) (f : pool → pool) : M unit :=
  modify (with_pools (alter f pid)).
Definition upd_conn (a : addr) (f : conn → conn) : M unit :=
  modify (with_heap (alter f a)).

(** [r.Close()] on a transport connection: the call is recorded and its
    error handed back. *)
Definition raw_close (r : rawconn) : M (option error) :=
  modify (with_closed (λ l, l ++ [rid r])) ;; ret (ErrExternal <$> close_err r).

(** [c.Conn.Close()] through the embedded interface: a nil [Conn] panics. *)
Definition Conn_Close (c : conn) : M (option error) :=
  match Conn c with
  | Some r => raw_close r
  | None => λ _, Panic
  end.

(** ** conn.go *)

(** [&conn{Conn: c, p: p}]: the other fields have their zero values. *)
Definition fresh_conn (pid : pool_id) (c : option rawconn) : conn :=
  {| lastUsed := 0; p := pid; unUsable := false; Conn := c |}.

(** [newConn(c, p)]: allocate the wrapper; its address is returned. *)
Definition newConn (c : option rawconn) (pid : pool_id) : M addr :=
  λ w, Done (with_heap (λ h, h ++ [fresh_conn pid c]) w) (length (heap w)).

Definition markUnusable (a : addr) : M unit :=
  the_conn a ;; upd_conn a (set_unUsable true).

Definition isUnUsable (a : addr) : M bool :=
  do c <- the_conn a; ret (unUsable c).

(** ** pool.go *)

(** [type Option func(p *pool) error]; [WithName] is the only one the
    package offers, and [pool] cannot be named outside it. *)
Inductive Option_ :=
| WithName (name : string).

Definition run_option (o : Option_) (pid : pool_id) : M (option error) :=
  match o with
  | WithName s => upd_pool pid (set_name s) ;; ret None
  end.

Definition defaultNamePrefix : string := "conn-pool".

(** [Config.validate] *)
Definition validate (c : Config) : option error :=
  if (MinSize c <? 0) || (MaxSize c <=? 0) || (MinSize c >? MaxSize c) then Some ErrInvalidMinMax
  else if Increment c >? MaxSize c - MinSize c then Some ErrInvalidIncrement
  else None.

(** [len(p.conns)]; the length of a nil channel is 0. *)
Definition available (pl : pool) : Z :=
  match conns pl with Some q => Z.of_nat (length q) | None => 0 end.

(** The live statistics view ([Available], [Request], [Success], [Active] of
    [*stats]) over a pool. *)
Definition Available (pl : pool) : Z := available pl.
Definition Request (pl : pool) : Z := val (request (pstats pl)).
Definition Success (pl : pool) : Z := val (success (pstats pl)).
Definition Active (pl : pool) : Z := val (size (pstats pl)) - available pl.

(** [p.conns <- c] as a statement: sending on a nil channel or on a full one
    never completes in a sequential run. *)
Definition chan_send (pid : pool_id) (a : addr) : M unit :=
  do pl <- the_pool pid;
  match conns pl with
  | Some q =>
      if Z.of_nat (length q) <? MaxSize (cfg pl)
      then upd_pool pid (set_conns (Some (q ++ [a])))
      else λ _, Block
  | None => λ _, Block
  end.

(** The loop of [addConnections], [n] iterations left. *)
Fixpoint addConnections_loop (n : nat) (pid : pool_id) : M (option error) :=
  match n with
  | O => ret None
  | S n' =>
      do pl <- the_pool pid;
      if val (size (pstats pl)) >=? MaxSize (cfg pl) then ret None
      else
        upd_pool pid (set_fcalls (S (fcalls pl))) ;;
        match factory pl (fcalls pl) with
        | DialFailed e => ret (Some (ErrExternal e))
        | Dialed c =>
            do a <- newConn c pid;
            chan_send pid a ;;
            upd_pool pid (set_pstats (set_size inc)) ;;
            addConnections_loop n' pid
        end
  end.

Definition addConnections (sz : Z) (pid : pool_id) : M (option error) :=
  the_pool pid ;; addConnections_loop (Z.to_nat sz) pid.

(** [start]: the compare-and-swap of [running] from 0 to 1. *)
Definition start (pid : pool_id) : M (option error) :=
  do pl <- the_pool pid;
  if running pl =? 0
  then upd_pool pid (set_running 1) ;; addConnections (MinSize (cfg pl)) pid
  else ret None.

(** [p := &pool{...}]: allocate the pool; its address is returned. *)
Definition alloc_pool (pl : pool) : M pool_id :=
  λ w, Done (with_pools (λ l, l ++ [pl]) w) (length (pools w)).

(** [connPoolCounter.inc()] *)
Definition connPoolCounter_inc : M Z :=
  λ w, Done (with_counter inc w) (inc (connPoolCounter w)).

(** The loop of [New] over its options. *)
Fixpoint apply_options (options : list Option_) (pid : pool_id) : M (option error) :=
  match options with
  | [] => ret None
  | opt :: options' =>
      do err <- run_option opt pid;
      match err with
      | Some e => ret (Some e)
      | None => apply_options options' pid
      end
  end.

(** [New]. The error of [start] is tested and then dropped: both branches
    fall through to [return p, nil]. *)
Definition New (c : Config) (f : option Factory) (options : list Option_)
  : M (option pool_id * option error) :=
  match f with
  | None => ret (None, Some ErrNoFactory)
  | Some f =>
      match validate c with
      | Some e => ret (None, Some e)
      | None =>
          do pid <- alloc_pool {| name := ""; cfg := c; factory := f; fcalls := 0%nat;
                                  conns := Some []; running := 0; pstats := newStats |};
          do err <- apply_options options pid;
          match err with
          | Some e => ret (None, Some e)
          | None =>
              do pl <- the_pool pid;
              (if String.eqb (name pl) ""
               then do n <- connPoolCounter_inc;
                    upd_pool pid (set_name (defaultNamePrefix +:+ "-" +:+
                                            NilZero.string_of_int (Z.to_int n)))
               else ret tt) ;;
              do err <- start pid;
              match err with
              | Some _ => ret (Some pid, None)
              | None => ret (Some pid, None)
              end
          end
      end
  end.

(** [tryGet], given the [p.get] to call after growing. *)
Definition tryGet_with (get : M (option addr * option error)) (pid : pool_id)
  : M (option addr * option error) :=
  do pl <- the_pool pid;
  if val (size (pstats pl)) <? MaxSize (cfg pl) then
    let n := Increment (cfg pl) in
    let n := if n + val (size (pstats pl)) >? MaxSize (cfg pl)
             then MaxSize (cfg pl) - val (size (pstats pl)) else n in
    do err <- addConnections n pid;
    match err with
    | Some e => ret (None, Some e)
    | None => get
    end
  else ret (None, Some ErrExhausted).

(** [get]. The [select] receives the head of the buffer when there is one
    and takes the [default] branch otherwise (also for a nil channel). The
    deferred [c.Conn.Close()] binds its receiver when [defer] executes (a nil
    [Conn] panics there) and runs once the recursive call has returned. *)
Fixpoint get (fuel : nat) (now : Z) (pid : pool_id) : M (option addr * option error) :=
  match fuel with
  | O => λ _, OutOfFuel
  | S fuel' =>
      do pl <- the_pool pid;
      match conns pl with
      | Some (a :: q) =>
          upd_pool pid (set_conns (Some q)) ;;
          do c <- the_conn a;
          if (lastUsed c >? 0) && (lastUsed c <? now - IdleTimeout (cfg pl)) then
            match Conn c with
            | None => λ _, Panic
            | Some r =>
                upd_pool pid (set_pstats (set_size dec)) ;;
                do res <- get fuel' now pid;
                raw_close r ;;
                ret res
            end
          else ret (Some a, None)
      | _ => tryGet_with (get fuel' now pid) pid
      end
  end.

Definition tryGet (fuel : nat) (now : Z) (pid : pool_id) : M (option addr * option error) :=
  tryGet_with (get fuel now pid) pid.

Definition updateStat (pid : pool_id) (err : option error) : M unit :=
  upd_pool pid (set_pstats (set_request inc)) ;;
  match err with
  | None => upd_pool pid (set_pstats (set_success inc))
  | Some _ => ret tt
  end.

(** [Get]: the deferred [updateStat] sees the error being returned. *)
Definition Get (fuel : nat) (now : Z) (pid : pool_id) : M (option addr * option error) :=
  do pl <- the_pool pid;
  do res <- (match conns pl with
             | None => ret (None, Some ErrClosed)
             | Some _ => if running pl =? 0 then ret (None, Some ErrClosed)
                         else get fuel now pid
             end);
  updateStat pid (snd res) ;;
  ret res.

(** [MarkUnusable]: only the dynamic type of the argument is tested. *)
Definition MarkUnusable (pid : pool_id) (c : netconn) : M unit :=
  match c with
  | Wrapper a => markUnusable a ;; the_pool pid ;; upd_pool pid (set_pstats (set_size dec))
  | _ => ret tt
  end.

(** The drain loop of [Stop] over what the closed channel still holds. *)
Fixpoint drain (q : list addr) (errMsgs : list string) : M (list string) :=
  match q with
  | [] => ret errMsgs
  | a :: q' =>
      do c <- the_conn a;
      match Conn c with
      | None => drain q' errMsgs
      | Some r =>
          do err <- raw_close r;
          match err with
          | Some e => drain q' (errMsgs ++ ["error: " +:+ Error_ e])
          | None => drain q' errMsgs
          end
      end
  end.

Definition join (sep : string) (l : list string) : string :=
  match l with
  | [] => ""
  | s :: l' => foldl (λ acc x, acc +:+ sep +:+ x) s l'
  end.

Definition newline : string := String (Ascii.ascii_of_nat 10) EmptyString.

(** [Stop]. [close(p.conns)] on a nil channel panics. *)
Definition Stop (pid : pool_id) : M (option error) :=
  do pl <- the_pool pid;
  if running pl =? 1 then
    upd_pool pid (set_running 0) ;;
    upd_pool pid (set_pstats stats_reset) ;;
    match conns pl with
    | None => λ _, Panic
    | Some q =>
        do errMsgs <- drain q [];
        upd_pool pid (set_conns None) ;;
        if (0 <? length errMsgs)%nat
        then ret (Some (ErrStop (join newline errMsgs)))
        else ret None
    end
  else ret None.

(** [put]. The capacity of [p.conns] is the [MaxSize] the channel was made
    with. *)
Definition put (now : Z) (pid : pool_id) (a : addr) : M (option error) :=
  do pl <- the_pool pid;
  do c <- the_conn a;
  do unusable <- isUnUsable a;
  if unusable then Conn_Close c
  else
    match conns pl with
    | Some q =>
        if Z.of_nat (length q) <? MaxSize (cfg pl) then
          upd_pool pid (set_conns (Some (q ++ [a]))) ;;
          upd_conn a (set_lastUsed now) ;;
          ret None
        else
          upd_pool pid (set_pstats (set_size dec)) ;;
          Conn_Close c
    | None =>
        upd_pool pid (set_pstats (set_size dec)) ;;
        Conn_Close c
    end.

(** [Close] of the wrapper, conn.go *)
Definition Close (now : Z) (a : addr) : M (option error) :=
  do c <- the_conn a;
  match Conn c with
  | None => ret (Some ErrInvalidConn)
  | Some _ => put now (p c) a
  end.

(** ** The public operations as steps *)

Inductive call :=
| CallNew (c : Config) (f : option Factory) (options : list Option_)
| CallGet (fuel : nat) (now : Z) (pid : pool_id)
| CallClose (now : Z) (a : addr)
| CallMarkUnusable (pid : pool_id) (c : netconn)
| CallStop (pid : pool_id).

Definition exec (c : call) : M unit :=
  match c with
  | CallNew c f options => New c f options ;; ret tt
  | CallGet fuel now pid => Get fuel now pid ;; ret tt
  | CallClose now a => Close now a ;; ret tt
  | CallMarkUnusable pid c => MarkUnusable pid c
  | CallStop pid => Stop pid ;; ret tt
  end.

(** Clock readings are Unix times in nanoseconds, hence not negative. *)
Definition timely (c : call) : Prop :=
  match c with
  | CallGet _ now _ => 0 ≤ now
  | CallClose now _ => 0 ≤ now
  | _ => True
  end.

(** A disciplined caller marks only wrappers it holds, that is, wrappers
    outside every idle buffer. *)
Definition outside_buffers (a : addr) (w : world) : Prop :=
  ∀ pid pl q, pools w !! pid = Some pl → conns pl = Some q → a ∉ q.

Definition permitted (strict : bool) (c : call) (w : world) : Prop :=
  match c with
  | CallMarkUnusable _ (Wrapper a) => strict = true → outside_buffers a w
  | _ => True
  end.

(** States reachable from the empty world by finished public calls; with
    [strict] set, only by disciplined ones. *)
Inductive reachable_by (strict : bool) : world → Prop :=
| reach_init : reachable_by strict init_world
| reach_step w c w' :
    reachable_by strict w → timely c → permitted strict c w →
    exec c w = Done w' tt → reachable_by strict w'.

Definition reachable : world → Prop := reachable_by false.

(** ** Invariants *)

Definition pool_ok (pl : pool) : Prop :=
  validate (cfg pl) = None ∧
  val (size (pstats pl)) ≤ MaxSize (cfg pl) ∧
  0 ≤ val (request (pstats pl)) ∧
  0 ≤ val (success (pstats pl)).

Definition conn_ok (c : conn) : Prop :=
  0 ≤ lastUsed c ∧ (lastUsed c ≠ 0 → is_Some (Conn c)).

Definition buf_ok (strict : bool) (h : list conn) (q : list addr) : Prop :=
  ∀ a, a ∈ q → ∃ c, h !! a = Some c ∧ (strict = true → unUsable c = false).

Definition chan_ok (strict : bool) (h : list conn) (pl : pool) : Prop :=
  ∀ q, conns pl = Some q → buf_ok strict h q.

Record Inv (strict : bool) (w : world) : Prop := {
  inv_pools : Forall pool_ok (pools w);
  inv_heap : Forall conn_ok (heap w);
  inv_chan : Forall (chan_ok strict (heap w)) (pools w);
}.

(** What [get] promises about its result on top of the invariant: a wrapper
    handed out is allocated and, for disciplined callers, not marked. *)
Definition handed_ok (strict : bool) (res : option addr * option error) (w : world) : Prop :=
  Inv strict w ∧
  ∀ a, res.1 = Some a → ∃ c, heap w !! a = Some c ∧ (strict = true → unUsable c = false).

(** Partial-correctness reading of a run: the postcondition holds of every
    finished run. *)
Definition wp {A} (m : M A) (Q : A → world → Prop) (w : world) : Prop :=
  match m w with
  | Done w' x => Q x w'
  | _ => True
  end.

(** ** Concrete configurations, factories and runs *)

(** The configuration [cfg] of the package's tests. *)
Definition cfg_test : Config :=
  {| MinSize := 1; MaxSize := 10; Increment := 1; IdleTimeout := 600000000000 |}.

(** A configuration with a zero increment; [validate] accepts it. *)
Definition cfg_zero_inc : Config :=
  {| MinSize := 0; MaxSize := 1; Increment := 0; IdleTimeout := 600000000000 |}.

(** A factory that always dials a fresh transport connection, and one that
    never succeeds. *)
Definition dial_ok : Factory := λ k, Dialed (Some {| rid := k; close_err := None |}).
Definition dial_fails : Factory := λ _, DialFailed "connection refused".

(** The world a finished run leaves (the given one if it did not finish). *)
Definition after {A} (m : M A) (w : world) : world :=
  match m w with
  | Done w' _ => w'
  | _ => w
  end.

(** Some clock readings, in nanoseconds since the epoch. *)
Definition t0 : Z := 1700000000000000000.
Definition t1 : Z := 1700000001000000000.
Definition t2 : Z := 1700000002000000000.

(** One pool of [cfg_test]; then one wrapper taken; then the pool stopped. *)
Definition w_new : world := after (New cfg_test (Some dial_ok) []) init_world.
Definition w_got : world := after (Get 2 t0 0%nat) w_new.
Definition w_stopped : world := after (Stop 0%nat) w_got.

(** The wrapper released at [t1]. *)
Definition w_released : world := after (Close t1 0%nat) w_got.

(** A pool of capacity one, its only wrapper taken and released. *)
Definition cfg_one : Config :=
  {| MinSize := 1; MaxSize := 1; Increment := 0; IdleTimeout := 600000000000 |}.
Definition w_one_new : world := after (New cfg_one (Some dial_ok) []) init_world.
Definition w_one_got : world := after (Get 2 t0 0%nat) w_one_new.
Definition w_one_released : world := after (Close t1 0%nat) w_one_got.


(** Stop, then the wrapper taken earlier is closed. *)
Definition w_closed_late : world := after (Close t1 0%nat) w_stopped.

(** The released wrapper marked while it sits in the idle buffer. *)
Definition w_marked_idle : world := after (MarkUnusable 0%nat (Wrapper 0%nat)) w_released.

(** A second pool next to the first, whose wrapper 0 is held by a caller. *)
Definition w_two : world := after (New cfg_test (Some dial_ok) []) w_got.

(** Wrapper [a] carries the unusable flag. *)
Definition marked (a : addr) (w : world) : Prop :=
  ∃ c, heap w !! a = Some c ∧ unUsable c = true.

(** A pool of [cfg_zero_inc]. *)
Definition w_zero : world := after (New cfg_zero_inc (Some dial_ok) []) init_world.

(** ** Further notions used by the properties *)

(** [Name] of pool.go. *)
Definition Name (pl : pool) : string := name pl.

(** Any number of finished public calls, one after the other. *)
Inductive steps : world → world → Prop :=
| steps_refl w : steps w w
| steps_step w c w1 w2 : exec c w = Done w1 tt → steps w1 w2 → steps w w2.

(** Pool [j] exists and satisfies [Q]; wrapper [a] exists and satisfies [Q]. *)
Definition pool_has (j : pool_id) (Q : pool → Prop) (w : world) : Prop :=
  ∃ pl, pools w !! j = Some pl ∧ Q pl.
Definition wrapper_has (a : addr) (Q : conn → Prop) (w : world) : Prop :=
  ∃ c, heap w !! a = Some c ∧ Q c.

(** A stopped pool: [running] is 0 and the channel is nil. *)
Definition stopped (pl : pool) : Prop := running pl = 0 ∧ conns pl = None.


(** The pool [New] allocates, before its options run. *)
Definition p_init (c : Config) (f : Factory) : pool :=
  {| name := ""; cfg := c; factory := f; fcalls := 0%nat;
     conns := Some []; running := 0; pstats := newStats |}.

(** The name the options leave in a pool named [s]: each [WithName]
    overwrites the one before. *)
Definition options_name (options : list Option_) (s : string) : string :=
  foldl (λ s o, match o with WithName n => n end) s options.

(** [fmt.Sprintf("%s-%d", defaultNamePrefix, n)] *)
Definition default_name (n : Z) : string :=
  defaultNamePrefix +:+ "-" +:+ NilZero.string_of_int (Z.to_int n).

(** The name [New] settles on and the package counter it leaves, given the
    options and the counter it finds. *)
Definition New_name (options : list Option_) (ctr : count) : string :=
  if String.eqb (options_name options "") "" then default_name (inc ctr)
  else options_name options "".
Definition New_counter (options : list Option_) (ctr : count) : count :=
  if String.eqb (options_name options "") "" then inc ctr else ctr.



(** Every idle buffer holds wrappers of its own pool only. *)
Definition owned (w : world) : Prop :=
  ∀ pid pl q a, pools w !! pid = Some pl → conns pl = Some q → a ∈ q →
    ∃ c, heap w !! a = Some c ∧ p c = pid.

(** What [get] hands back to a caller of pool [pid]: a wrapper of that pool
    and no error, or an error and no wrapper. *)
Definition own_result (pid : pool_id) (res : option addr * option error) (w : world) : Prop :=
  match res with
  | (Some a, None) => ∃ c, heap w !! a = Some c ∧ p c = pid
  | (None, Some _) => True
  | _ => False
  end.



(** No pool has counted more successes than requests. *)
Definition tally_ok (pl : pool) : Prop := Success pl ≤ Request pl.
Definition counted (w : world) : Prop :=
  ∀ pid pl, pools w !! pid = Some pl → tally_ok pl.

(** * Properties *)

(** ** Rules for [wp] *)

Lemma wp_ret {A} (x : A) Q w : wp (ret x) Q w = Q x w.
Proof. reflexivity. Qed.

Lemma wp_bind {A B} (m : M A) (k : A → M B) Q w :
  wp (bind m k) Q w = wp m (λ x, wp (k x) Q) w.
Proof. unfold wp, bind. destruct (m w); reflexivity. Qed.

Lemma wp_modify f Q w : wp (modify f) Q w = Q tt (f w).
Proof. reflexivity. Qed.

Lemma wp_upd_pool pid f Q w :
  wp (upd_pool pid f) Q w = Q tt (with_pools (alter f pid) w).
Proof. reflexivity. Qed.

Lemma wp_upd_conn a f Q w :
  wp (upd_conn a f) Q w = Q tt (with_heap (alter f a) w).
Proof. reflexivity. Qed.

Lemma wp_the_pool pid Q w :
  (∀ pl, pools w !! pid = Some pl → Q pl w) → wp (the_pool pid) Q w.
Proof. intros H. unfold wp, the_pool. destruct (pools w !! pid); auto. Qed.

Lemma wp_the_conn a Q w :
  (∀ c, heap w !! a = Some c → Q c w) → wp (the_conn a) Q w.
Proof. intros H. unfold wp, the_conn. destruct (heap w !! a); auto. Qed.

Lemma wp_mono {A} (m : M A) (Q Q' : A → world → Prop) w :
  (∀ x w', Q x w' → Q' x w') → wp m Q w → wp m Q' w.
Proof. unfold wp. destruct (m w); auto. Qed.

Lemma wp_Done {A} (m : M A) Q w w' x : wp m Q w → m w = Done w' x → Q x w'.
Proof. unfold wp. intros H E. rewrite E in H. exact H. Qed.

Lemma wp_raw_close r Q w :
  wp (raw_close r) Q w = Q (ErrExternal <$> close_err r) (with_closed (λ l, l ++ [rid r]) w).
Proof. reflexivity. Qed.

Lemma wp_newConn c pid Q w :
  wp (newConn c pid) Q w
  = Q (length (heap w)) (with_heap (λ h, h ++ [fresh_conn pid c]) w).
Proof. reflexivity. Qed.

(** ** The invariant under the elementary updates *)

Section invariant.
Context (s : bool).

Lemma Inv_with_closed f w : Inv s w → Inv s (with_closed f w).
Proof. intros [H1 H2 H3]. split; assumption. Qed.

Lemma Inv_with_counter f w : Inv s w → Inv s (with_counter f w).
Proof. intros [H1 H2 H3]. split; assumption. Qed.

Lemma buf_ok_alloc h c q : buf_ok s h q → buf_ok s (h ++ [c]) q.
Proof.
  intros H a Ha. destruct (H a Ha) as (c' & Hc' & Hu).
  exists c'. split; [|exact Hu]. by apply lookup_app_l_Some.
Qed.

Lemma Inv_alloc c w :
  Inv s w → conn_ok c → Inv s (with_heap (λ h, h ++ [c]) w).
Proof.
  intros [H1 H2 H3] Hc. split; simpl.
  - exact H1.
  - apply Forall_app. split; [exact H2|]. by apply Forall_singleton.
  - eapply Forall_impl; [exact H3|]. intros pl Hpl q Hq.
    apply buf_ok_alloc. by apply Hpl.
Qed.

Lemma Inv_upd_pool pid f w :
  Inv s w →
  (∀ pl, pools w !! pid = Some pl → pool_ok (f pl) ∧ chan_ok s (heap w) (f pl)) →
  Inv s (with_pools (alter f pid) w).
Proof.
  intros [H1 H2 H3] Hf. split; simpl.
  - apply Forall_alter; [exact H1|]. intros pl Hpl _. by apply Hf.
  - exact H2.
  - apply Forall_alter; [exact H3|]. intros pl Hpl _. by apply Hf.
Qed.

Lemma Inv_add_pool pl w :
  Inv s w → pool_ok pl → chan_ok s (heap w) pl → Inv s (with_pools (λ l, l ++ [pl]) w).
Proof.
  intros [H1 H2 H3] Hp Hc. split; simpl.
  - apply Forall_app. split; [exact H1|]. by apply Forall_singleton.
  - exact H2.
  - apply Forall_app. split; [exact H3|]. by apply Forall_singleton.
Qed.

Lemma Inv_upd_conn a f w :
  Inv s w →
  (∀ c, heap w !! a = Some c → conn_ok (f c)) →
  (s = true → (∀ c, unUsable (f c) = unUsable c) ∨ outside_buffers a w) →
  Inv s (with_heap (alter f a) w).
Proof.
  intros [H1 H2 H3] Hf Hs. split; simpl.
  - exact H1.
  - apply Forall_alter; [exact H2|]. intros c Hc _. by apply Hf.
  - apply Forall_lookup. intros pid pl Hpl q Hq a' Ha'.
    rewrite Forall_lookup in H3.
    destruct (H3 pid pl Hpl q Hq a' Ha') as (c & Hc & Hu).
    destruct (decide (a = a')) as [->|Hne].
    + exists (f c). rewrite list_lookup_alter_eq. rewrite Hc. split; [done|].
      intros Hst. destruct (Hs Hst) as [Hsame|Hout].
      * rewrite Hsame. by apply Hu.
      * exfalso. by apply (Hout pid pl q Hpl Hq).
    + exists c. by rewrite list_lookup_alter_ne.
Qed.

Lemma Inv_pool pid pl w :
  Inv s w → pools w !! pid = Some pl → pool_ok pl ∧ chan_ok s (heap w) pl.
Proof.
  intros [H1 _ H3] Hpl. rewrite Forall_lookup in H1. rewrite Forall_lookup in H3. eauto.
Qed.

Lemma Inv_conn a c w : Inv s w → heap w !! a = Some c → conn_ok c.
Proof. intros [_ H2 _] Hc. rewrite Forall_lookup in H2. eauto. Qed.

End invariant.

(** ** The invariant under the operations *)

Lemma wp_the_pool_eq pid pl Q w :
  pools w !! pid = Some pl → wp (the_pool pid) Q w = Q pl w.
Proof. intros H. unfold wp, the_pool. by rewrite H. Qed.

Lemma wp_the_conn_eq a c Q w :
  heap w !! a = Some c → wp (the_conn a) Q w = Q c w.
Proof. intros H. unfold wp, the_conn. by rewrite H. Qed.

Ltac unfold_counters := unfold inc, dec, val, reset, newCounter in *.

Ltac lookup_pool H :=
  cbn [pools heap closed connPoolCounter with_pools with_heap with_closed with_counter] in H;
  rewrite ?list_lookup_alter_eq in H.

Section operations.
Context (s : bool).

Lemma addConnections_loop_Inv n pid w :
  Inv s w → wp (addConnections_loop n pid) (λ _ w', Inv s w') w.
Proof.
  revert w. induction n as [|n IH]; intros w HI; simpl.
  - by rewrite wp_ret.
  - rewrite wp_bind. apply wp_the_pool. intros pl Hpl.
    destruct (Inv_pool s pid pl w HI Hpl) as [(Hv & Hsz & Hrq & Hsc) Hch].
    destruct (Z.geb_spec (val (size (pstats pl))) (MaxSize (cfg pl))) as [Hge|Hlt].
    { by rewrite wp_ret. }
    rewrite wp_bind, wp_upd_pool.
    assert (HI1 : Inv s (with_pools (alter (set_fcalls (S (fcalls pl))) pid) w)).
    { apply Inv_upd_pool; [exact HI|]. intros pl' Hpl'.
      rewrite Hpl in Hpl'. injection Hpl' as <-. split; [by repeat split|exact Hch]. }
    destruct (factory pl (fcalls pl)) as [c|e]; [|by rewrite wp_ret].
    rewrite wp_bind, wp_newConn.
    set (c0 := fresh_conn pid c).
    assert (HI2 : Inv s (with_heap (λ h, h ++ [c0])
                           (with_pools (alter (set_fcalls (S (fcalls pl))) pid) w))).
    { apply Inv_alloc; [exact HI1|]. split; simpl; [lia|congruence]. }
    rewrite wp_bind. unfold chan_send. rewrite wp_bind.
    erewrite wp_the_pool_eq; last first.
    { cbn. rewrite list_lookup_alter_eq, Hpl. reflexivity. }
    cbn [conns set_fcalls cfg].
    destruct (conns pl) as [q|] eqn:Hq; [|exact I].
    destruct (Z.of_nat (length q) <? MaxSize (cfg pl)); [|exact I].
    rewrite wp_upd_pool, wp_bind, wp_upd_pool.
    apply IH.
    apply Inv_upd_pool.
    + apply Inv_upd_pool; [exact HI2|]. intros pl' Hpl'.
      lookup_pool Hpl'. rewrite Hpl in Hpl'. injection Hpl' as <-.
      split; [by repeat split|].
      intros q' Hq'. cbn in Hq'. injection Hq' as <-.
      intros a Ha. apply elem_of_app in Ha as [Ha|Ha].
      * exact (buf_ok_alloc s _ c0 q (Hch q Hq) a Ha).
      * apply list_elem_of_singleton in Ha as ->.
        exists c0. split; [|done]. cbn. apply list_lookup_middle. reflexivity.
    + intros pl' Hpl'. lookup_pool Hpl'. rewrite Hpl in Hpl'. injection Hpl' as <-.
      destruct (Inv_pool s pid _ _ HI2 ltac:(cbn; rewrite list_lookup_alter_eq, Hpl; reflexivity))
        as [_ Hch2].
      split.
      * repeat split; cbn; unfold_counters; try assumption; lia.
      * intros q' Hq'. cbn in Hq'. injection Hq' as <-.
        intros a Ha. apply elem_of_app in Ha as [Ha|Ha].
        -- exact (buf_ok_alloc s _ c0 q (Hch q Hq) a Ha).
        -- apply list_elem_of_singleton in Ha as ->.
           exists c0. split; [|done]. cbn. apply list_lookup_middle. reflexivity.
Qed.

Lemma addConnections_Inv n pid w :
  Inv s w → wp (addConnections n pid) (λ _ w', Inv s w') w.
Proof.
  intros HI. unfold addConnections. rewrite wp_bind. apply wp_the_pool. intros _ _.
  by apply addConnections_loop_Inv.
Qed.

Lemma tryGet_with_Inv (g : M (option addr * option error)) pid :
  (∀ w, Inv s w → wp g (handed_ok s) w) →
  ∀ w, Inv s w → wp (tryGet_with g pid) (handed_ok s) w.
Proof.
  intros Hg w HI. unfold tryGet_with. rewrite wp_bind. apply wp_the_pool. intros pl Hpl.
  destruct (val (size (pstats pl)) <? MaxSize (cfg pl)).
  - rewrite wp_bind. eapply wp_mono; [|by apply addConnections_Inv].
    intros [e|] w' HI'; cbn beta iota.
    + rewrite wp_ret. split; [exact HI'|]. intros a Ha. discriminate Ha.
    + by apply Hg.
  - rewrite wp_ret. split; [exact HI|]. intros a Ha. discriminate Ha.
Qed.

Lemma Inv_pop pid pl a q w :
  Inv s w → pools w !! pid = Some pl → conns pl = Some (a :: q) →
  Inv s (with_pools (alter (set_conns (Some q)) pid) w).
Proof.
  intros HI Hpl Hq. apply Inv_upd_pool; [exact HI|].
  intros pl' Hpl'. rewrite Hpl in Hpl'. injection Hpl' as <-.
  destruct (Inv_pool s pid pl w HI Hpl) as [Hok Hch].
  split; [exact Hok|]. intros q' Hq'. cbn in Hq'. injection Hq' as <-.
  intros a' Ha'. apply (Hch _ Hq). by apply list_elem_of_further.
Qed.

Lemma Inv_size_dec pid w :
  Inv s w → Inv s (with_pools (alter (set_pstats (set_size dec)) pid) w).
Proof.
  intros HI. apply Inv_upd_pool; [exact HI|]. intros pl Hpl.
  destruct (Inv_pool s pid pl w HI Hpl) as [(Hv & Hsz & Hrq & Hsc) Hch].
  split; [|exact Hch]. repeat split; cbn; unfold_counters; try assumption; lia.
Qed.

Lemma get_Inv fuel now pid w :
  Inv s w → wp (get fuel now pid) (handed_ok s) w.
Proof.
  revert w. induction fuel as [|fuel IH]; intros w HI; [exact I|].
  simpl. rewrite wp_bind. apply wp_the_pool. intros pl Hpl.
  destruct (conns pl) as [[|a q]|] eqn:Hq; try by apply tryGet_with_Inv.
  destruct (Inv_pool s pid pl w HI Hpl) as [Hok Hch].
  destruct (Hch _ Hq a ltac:(apply list_elem_of_here)) as (c & Hc & Hu).
  pose proof (Inv_pop pid pl a q w HI Hpl Hq) as HI1.
  rewrite wp_bind, wp_upd_pool, wp_bind.
  erewrite wp_the_conn_eq by exact Hc.
  destruct ((lastUsed c >? 0) && (lastUsed c <? now - IdleTimeout (cfg pl))).
  - destruct (Conn c) as [r|]; [|exact I].
    rewrite wp_bind, wp_upd_pool, wp_bind.
    eapply wp_mono; [|apply IH; by apply Inv_size_dec].
    intros res w' [HI' Hres]. rewrite wp_bind, wp_raw_close, wp_ret.
    split; [by apply Inv_with_closed|exact Hres].
  - rewrite wp_ret. split; [exact HI1|].
    intros a' Ha'. cbn in Ha'. injection Ha' as <-. exists c. by split.
Qed.

Lemma updateStat_Inv pid err w :
  Inv s w → wp (updateStat pid err) (λ _ w', Inv s w' ∧ heap w' = heap w) w.
Proof.
  intros HI. unfold updateStat. rewrite wp_bind, wp_upd_pool.
  assert (HI1 : Inv s (with_pools (alter (set_pstats (set_request inc)) pid) w)).
  { apply Inv_upd_pool; [exact HI|]. intros pl Hpl.
    destruct (Inv_pool s pid pl w HI Hpl) as [(Hv & Hsz & Hrq & Hsc) Hch].
    split; [|exact Hch]. repeat split; cbn; unfold_counters; try assumption; lia. }
  destruct err; [by rewrite wp_ret|].
  rewrite wp_upd_pool. split; [|reflexivity].
  apply Inv_upd_pool; [exact HI1|]. intros pl Hpl.
  destruct (Inv_pool s pid pl _ HI1 Hpl) as [(Hv & Hsz & Hrq & Hsc) Hch].
  split; [|exact Hch]. repeat split; cbn; unfold_counters; try assumption; lia.
Qed.

Lemma Get_Inv fuel now pid w :
  Inv s w → wp (Get fuel now pid) (handed_ok s) w.
Proof.
  intros HI. unfold Get. rewrite wp_bind. apply wp_the_pool. intros pl Hpl.
  rewrite wp_bind.
  assert (Hclosed : wp (ret (None, Some ErrClosed))
            (λ res w', wp (updateStat pid res.2;; ret res) (handed_ok s) w') w).
  { rewrite wp_ret, wp_bind. eapply wp_mono; [|by apply updateStat_Inv].
    intros _ w' [HI' _]. rewrite wp_ret. split; [exact HI'|]. intros a Ha. discriminate Ha. }
  destruct (conns pl); [|exact Hclosed].
  destruct (running pl =? 0); [exact Hclosed|].
  eapply wp_mono; [|by apply get_Inv].
  intros res w' [HI' Hres]. rewrite wp_bind.
  eapply wp_mono; [|by apply updateStat_Inv].
  intros _ w'' [HI'' Hh]. rewrite wp_ret. split; [exact HI''|].
  rewrite Hh. exact Hres.
Qed.

Lemma validate_None c :
  validate c = None →
  0 ≤ MinSize c ∧ 0 < MaxSize c ∧ MinSize c ≤ MaxSize c ∧ Increment c ≤ MaxSize c - MinSize c.
Proof.
  unfold validate.
  destruct (Z.ltb_spec (MinSize c) 0), (Z.leb_spec (MaxSize c) 0),
    (Z.gtb_spec (MinSize c) (MaxSize c)), (Z.gtb_spec (Increment c) (MaxSize c - MinSize c));
    cbn; intros; try discriminate; lia.
Qed.

Lemma MarkUnusable_Inv pid c w :
  permitted s (CallMarkUnusable pid c) w →
  Inv s w → wp (MarkUnusable pid c) (λ _ w', Inv s w') w.
Proof.
  intros Hperm HI. destruct c as [|a|r]; [exact HI| |exact HI].
  cbn in Hperm. unfold MarkUnusable, markUnusable.
  rewrite !wp_bind. apply wp_the_conn. intros c Hc.
  rewrite wp_upd_conn, wp_bind. apply wp_the_pool. intros pl Hpl.
  rewrite wp_upd_pool. apply Inv_size_dec. apply Inv_upd_conn; [exact HI| |].
  - intros c' Hc'. rewrite Hc in Hc'. injection Hc' as <-.
    exact (Inv_conn s a c w HI Hc).
  - intros Hs. right. by apply Hperm.
Qed.

Lemma drain_Inv q msgs w :
  Inv s w → wp (drain q msgs) (λ _ w', Inv s w') w.
Proof.
  revert msgs w. induction q as [|a q IH]; intros msgs w HI; simpl.
  - by rewrite wp_ret.
  - rewrite wp_bind. apply wp_the_conn. intros c Hc.
    destruct (Conn c) as [r|]; [|by apply IH].
    rewrite wp_bind, wp_raw_close.
    destruct (ErrExternal <$> close_err r); apply IH; by apply Inv_with_closed.
Qed.

Lemma Stop_Inv pid w :
  Inv s w → wp (Stop pid) (λ _ w', Inv s w') w.
Proof.
  intros HI. unfold Stop. rewrite wp_bind. apply wp_the_pool. intros pl Hpl.
  destruct (running pl =? 1); [|by rewrite wp_ret].
  rewrite wp_bind, wp_upd_pool, wp_bind, wp_upd_pool.
  destruct (conns pl) as [q|]; [|exact I].
  rewrite wp_bind. eapply wp_mono; [|apply drain_Inv].
  - intros msgs w' HI'. rewrite wp_bind, wp_upd_pool.
    assert (Inv s (with_pools (alter (set_conns None) pid) w')).
    { apply Inv_upd_pool; [exact HI'|]. intros pl' Hpl'.
      destruct (Inv_pool s pid pl' w' HI' Hpl') as [Hok _].
      split; [exact Hok|]. intros q' Hq'. discriminate Hq'. }
    by destruct (0 <? length msgs)%nat; rewrite wp_ret.
  - apply Inv_upd_pool.
    + apply Inv_upd_pool; [exact HI|]. intros pl' Hpl'.
      destruct (Inv_pool s pid pl' w HI Hpl') as [Hok Hch]. by split.
    + intros pl' Hpl'.
      match goal with
      | |- _ ∧ chan_ok _ (heap ?w0) _ =>
          assert (HI0 : Inv s w0)
      end.
      { apply Inv_upd_pool; [exact HI|]. intros pl'' Hpl''.
        destruct (Inv_pool s pid pl'' w HI Hpl'') as [Hok Hch]. by split. }
      destruct (Inv_pool s pid pl' _ HI0 Hpl') as [(Hv & Hsz & Hrq & Hsc) Hch].
      split; [|exact Hch]. pose proof (validate_None _ Hv).
      repeat split; cbn; unfold_counters; try assumption; lia.
Qed.

Lemma Close_Inv now a w :
  0 ≤ now → Inv s w → wp (Close now a) (λ _ w', Inv s w') w.
Proof.
  intros Hnow HI. unfold Close. rewrite wp_bind. apply wp_the_conn. intros c Hc.
  destruct (Conn c) as [r|] eqn:Hr; [|by rewrite wp_ret].
  unfold put. rewrite wp_bind. apply wp_the_pool. intros pl Hpl.
  rewrite wp_bind. erewrite wp_the_conn_eq by exact Hc.
  unfold isUnUsable. rewrite !wp_bind. erewrite wp_the_conn_eq by exact Hc. rewrite wp_ret.
  assert (Hclose : ∀ w1, Inv s w1 → wp (Conn_Close c) (λ _ w', Inv s w') w1).
  { intros w1 HI1. unfold Conn_Close. rewrite Hr, wp_raw_close. by apply Inv_with_closed. }
  assert (Hfull : wp (upd_pool (p c) (set_pstats (set_size dec));; Conn_Close c)
                     (λ _ w', Inv s w') w).
  { rewrite wp_bind, wp_upd_pool. apply Hclose. by apply Inv_size_dec. }
  destruct (unUsable c) eqn:Hu; [by apply Hclose|].
  destruct (conns pl) as [q|] eqn:Hq; [|exact Hfull].
  destruct (Z.of_nat (length q) <? MaxSize (cfg pl)); [|exact Hfull].
  rewrite wp_bind, wp_upd_pool, wp_bind, wp_upd_conn, wp_ret.
  apply Inv_upd_conn.
  - apply Inv_upd_pool; [exact HI|]. intros pl' Hpl'.
    rewrite Hpl in Hpl'. injection Hpl' as <-.
    destruct (Inv_pool s _ pl w HI Hpl) as [Hok Hch].
    split; [exact Hok|]. intros q' Hq'. cbn in Hq'. injection Hq' as <-.
    intros a' Ha'. apply elem_of_app in Ha' as [Ha'|Ha'].
    + by apply (Hch q Hq).
    + apply list_elem_of_singleton in Ha' as ->. exists c. by split.
  - intros c' Hc'. cbn in Hc'. rewrite Hc in Hc'. injection Hc' as <-.
    split; cbn; [exact Hnow|]. intros _. by rewrite Hr.
  - intros _. left. reflexivity.
Qed.

Lemma start_Inv pid w :
  Inv s w → wp (start pid) (λ _ w', Inv s w') w.
Proof.
  intros HI. unfold start. rewrite wp_bind. apply wp_the_pool. intros pl Hpl.
  destruct (running pl =? 0); [|by rewrite wp_ret].
  rewrite wp_bind, wp_upd_pool. apply addConnections_Inv.
  apply Inv_upd_pool; [exact HI|]. intros pl' Hpl'.
  destruct (Inv_pool s pid pl' w HI Hpl') as [Hok Hch]. by split.
Qed.

Lemma Inv_set_name nm pid w :
  Inv s w → Inv s (with_pools (alter (set_name nm) pid) w).
Proof.
  intros HI. apply Inv_upd_pool; [exact HI|]. intros pl Hpl.
  destruct (Inv_pool s pid pl w HI Hpl) as [Hok Hch]. by split.
Qed.

Lemma apply_options_Inv options pid w :
  Inv s w → wp (apply_options options pid) (λ _ w', Inv s w') w.
Proof.
  revert w. induction options as [|[nm] options IH]; intros w HI; simpl.
  - by rewrite wp_ret.
  - rewrite !wp_bind, wp_upd_pool, wp_ret. apply IH. by apply Inv_set_name.
Qed.

Lemma New_Inv c f options w :
  Inv s w → wp (New c f options) (λ _ w', Inv s w') w.
Proof.
  intros HI. unfold New. destruct f as [f|]; [|by rewrite wp_ret].
  destruct (validate c) as [e|] eqn:Hv; [by rewrite wp_ret|].
  rewrite wp_bind. unfold wp at 1, alloc_pool.
  rewrite wp_bind. eapply wp_mono; [|apply apply_options_Inv].
  - intros [e|] w1 HI1; [by rewrite wp_ret|].
    rewrite wp_bind. apply wp_the_pool. intros pl Hpl. rewrite wp_bind.
    assert (Hstart : ∀ w2, Inv s w2 →
              wp (do err <- start (length (pools w));
                  match err with
                  | Some _ => ret (Some (length (pools w)), @None error)
                  | None => ret (Some (length (pools w)), @None error)
                  end) (λ _ w', Inv s w') w2).
    { intros w2 HI2. rewrite wp_bind. eapply wp_mono; [|by apply start_Inv].
      intros [e|] w3 HI3; by rewrite wp_ret. }
    destruct (String.eqb (name pl) "").
    + rewrite wp_bind. unfold wp at 1, connPoolCounter_inc.
      rewrite wp_upd_pool. apply Hstart. apply Inv_set_name. by apply Inv_with_counter.
    + rewrite wp_ret. by apply Hstart.
  - apply Inv_add_pool; [exact HI| |].
    + destruct (validate_None _ Hv) as (? & ? & ? & ?).
      unfold pool_ok. cbn. unfold_counters. repeat split; try assumption; lia.
    + intros q Hq. cbn in Hq. injection Hq as <-.
      intros a Ha. by apply not_elem_of_nil in Ha.
Qed.

Lemma exec_Inv c w :
  timely c → permitted s c w → Inv s w → wp (exec c) (λ _ w', Inv s w') w.
Proof.
  intros Ht Hp HI. destruct c as [c f o|fuel now pid|now a|pid c|pid]; cbn [exec].
  - rewrite wp_bind. eapply wp_mono; [|by apply New_Inv]. intros. by rewrite wp_ret.
  - rewrite wp_bind. eapply wp_mono; [|by apply Get_Inv]. intros ? ? [? _]. by rewrite wp_ret.
  - rewrite wp_bind. eapply wp_mono; [|by apply Close_Inv]. intros. by rewrite wp_ret.
  - by apply MarkUnusable_Inv.
  - rewrite wp_bind. eapply wp_mono; [|by apply Stop_Inv]. intros. by rewrite wp_ret.
Qed.

Lemma Inv_init : Inv s init_world.
Proof. split; cbn; constructor. Qed.

Lemma reachable_by_Inv w : reachable_by s w → Inv s w.
Proof.
  induction 1 as [|w c w' _ IH Ht Hp Hex]; [apply Inv_init|].
  exact (wp_Done _ _ _ _ _ (exec_Inv c w Ht Hp IH) Hex).
Qed.

End operations.

Lemma reachable_by_weaken w : reachable_by true w → reachable w.
Proof.
  induction 1 as [|w c w' _ IH Ht Hp Hex]; [apply reach_init|].
  eapply reach_step; [exact IH|exact Ht| |exact Hex].
  destruct c as [| | |pid [|a|r]|]; cbn; try exact I. discriminate.
Qed.

(** ** Concrete worlds are reachable *)

Lemma disciplined_w_new : reachable_by true w_new.
Proof.
  apply (reach_step true init_world (CallNew cfg_test (Some dial_ok) []) w_new);
    [apply reach_init|exact I|exact I|reflexivity].
Qed.

Lemma disciplined_w_got : reachable_by true w_got.
Proof.
  apply (reach_step true w_new (CallGet 2 t0 0%nat) w_got);
    [apply disciplined_w_new|discriminate|exact I|reflexivity].
Qed.

Lemma disciplined_w_released : reachable_by true w_released.
Proof.
  apply (reach_step true w_got (CallClose t1 0%nat) w_released);
    [apply disciplined_w_got|discriminate|exact I|reflexivity].
Qed.

Lemma disciplined_w_stopped : reachable_by true w_stopped.
Proof.
  apply (reach_step true w_got (CallStop 0%nat) w_stopped);
    [apply disciplined_w_got|exact I|exact I|reflexivity].
Qed.

Lemma reachable_w_new : reachable w_new.
Proof. apply reachable_by_weaken, disciplined_w_new. Qed.

Lemma reachable_w_got : reachable w_got.
Proof. apply reachable_by_weaken, disciplined_w_got. Qed.

Lemma reachable_w_released : reachable w_released.
Proof. apply reachable_by_weaken, disciplined_w_released. Qed.

Lemma reachable_w_stopped : reachable w_stopped.
Proof. apply reachable_by_weaken, disciplined_w_stopped. Qed.

Lemma reachable_w_closed_late : reachable w_closed_late.
Proof.
  apply (reach_step false w_stopped (CallClose t1 0%nat) w_closed_late);
    [apply reachable_w_stopped|discriminate|exact I|reflexivity].
Qed.

Lemma reachable_w_marked_idle : reachable w_marked_idle.
Proof.
  apply (reach_step false w_released (CallMarkUnusable 0%nat (Wrapper 0%nat)) w_marked_idle);
    [apply reachable_w_released|exact I|discriminate|reflexivity].
Qed.

Lemma reachable_w_one_released : reachable w_one_released.
Proof.
  apply (reach_step false w_one_got (CallClose t1 0%nat) w_one_released);
    [|discriminate|exact I|reflexivity].
  apply (reach_step false w_one_new (CallGet 2 t0 0%nat) w_one_got);
    [|discriminate|exact I|reflexivity].
  apply (reach_step false init_world (CallNew cfg_one (Some dial_ok) []) w_one_new);
    [apply reach_init|exact I|exact I|reflexivity].
Qed.

Lemma reachable_w_two : reachable w_two.
Proof.
  apply (reach_step false w_got (CallNew cfg_test (Some dial_ok) []) w_two);
    [apply reachable_w_got|exact I|exact I|reflexivity].
Qed.

(** ** New *)

Lemma apply_options_no_error options pid w :
  wp (apply_options options pid) (λ err _, err = None) w.
Proof.
  revert w. induction options as [|[nm] options IH]; intros w; simpl.
  - by rewrite wp_ret.
  - rewrite !wp_bind, wp_upd_pool, wp_ret. apply IH.
Qed.

(** Whatever [start] reports, a finished [New] on a valid configuration
    hands back a pool and a nil error. *)
Lemma New_valid_returns_pool c f options w :
  validate c = None →
  wp (New c (Some f) options) (λ res _, is_Some res.1 ∧ res.2 = None) w.
Proof.
  intros Hv. unfold New. rewrite Hv, wp_bind. unfold wp at 1, alloc_pool.
  rewrite wp_bind. eapply wp_mono; [|apply apply_options_no_error].
  intros err w1 ->. rewrite wp_bind. apply wp_the_pool. intros pl Hpl.
  rewrite wp_bind.
  assert (Hstart : ∀ w2,
            wp (do err <- start (length (pools w));
                match err with
                | Some _ => ret (Some (length (pools w)), @None error)
                | None => ret (Some (length (pools w)), @None error)
                end) (λ res _, is_Some res.1 ∧ res.2 = None) w2).
  { intros w2. rewrite wp_bind. unfold wp at 1.
    destruct (start (length (pools w)) w2) as [w3 [e|]| | |]; try exact I;
      rewrite wp_ret; cbn; eauto. }
  destruct (String.eqb (name pl) "").
  - rewrite wp_bind. unfold wp at 1, connPoolCounter_inc. rewrite wp_upd_pool. apply Hstart.
  - rewrite wp_ret. apply Hstart.
Qed.

(** C1 (the code departs from the claim). With the valid configuration
    [cfg_test] and a factory whose first call fails, the eager population of
    [New] fails at once, yet [New] returns the pool at address 0 together
    with a nil error; the pool is running and holds no connection. The
    factory's error is not returned. *)
Theorem New_swallows_factory_error :
  validate cfg_test = None ∧
  dial_fails 0%nat = DialFailed "connection refused" ∧
  ∃ w pl,
    New cfg_test (Some dial_fails) [] init_world = Done w (Some 0%nat, None) ∧
    pools w !! 0%nat = Some pl ∧
    running pl = 1 ∧ fcalls pl = 1%nat ∧ conns pl = Some [] ∧ val (size (pstats pl)) = 0.
Proof.
  split; [reflexivity|]. split; [reflexivity|].
  eexists. eexists. split; [reflexivity|]. cbn. repeat split.
Qed.

(** ** Stop *)

Lemma drain_frame q msgs w :
  wp (drain q msgs) (λ _ w', pools w' = pools w ∧ heap w' = heap w) w.
Proof.
  revert msgs w. induction q as [|a q IH]; intros msgs w; simpl.
  - by rewrite wp_ret.
  - rewrite wp_bind. apply wp_the_conn. intros c Hc.
    destruct (Conn c) as [r|]; [|by apply IH].
    rewrite wp_bind, wp_raw_close.
    destruct (ErrExternal <$> close_err r);
      (eapply wp_mono; [|apply IH]); intros ? ? [-> ->]; done.
Qed.

Lemma Stop_running pid pl w :
  pools w !! pid = Some pl → running pl = 1 →
  wp (Stop pid)
     (λ _ w', ∃ pl', pools w' !! pid = Some pl' ∧ running pl' = 0 ∧ conns pl' = None ∧
                     pstats pl' = stats_reset (pstats pl) ∧ cfg pl' = cfg pl) w.
Proof.
  intros Hpl Hrun. unfold Stop. rewrite wp_bind. erewrite wp_the_pool_eq by exact Hpl.
  rewrite Hrun. cbn [Z.eqb Pos.eqb].
  rewrite wp_bind, wp_upd_pool, wp_bind, wp_upd_pool.
  destruct (conns pl) as [q|]; [|exact I].
  rewrite wp_bind. eapply wp_mono; [|apply drain_frame].
  intros msgs w' [Hp Hh]. rewrite wp_bind, wp_upd_pool.
  assert (∃ pl', pools (with_pools (alter (set_conns None) pid) w') !! pid = Some pl' ∧
                 running pl' = 0 ∧ conns pl' = None ∧
                 pstats pl' = stats_reset (pstats pl) ∧ cfg pl' = cfg pl) as Hres.
  { eexists. split.
    - cbn. rewrite Hp. cbn. rewrite !list_lookup_alter_eq, Hpl. reflexivity.
    - cbn. by repeat split. }
  by destruct (0 <? length msgs)%nat; rewrite wp_ret.
Qed.

Lemma Stop_stopped pid pl w :
  pools w !! pid = Some pl → running pl = 0 → Stop pid w = Done w None.
Proof.
  intros Hpl Hrun. unfold Stop, bind, the_pool. rewrite Hpl, Hrun. reflexivity.
Qed.

Lemma Get_stopped fuel now pid pl w :
  pools w !! pid = Some pl → running pl = 0 →
  Get fuel now pid w
  = Done (with_pools (alter (set_pstats (set_request inc)) pid) w) (None, Some ErrClosed).
Proof.
  intros Hpl Hrun. unfold Get, bind, the_pool. rewrite Hpl, Hrun.
  destruct (conns pl); reflexivity.
Qed.

(** C2 (amended). The first [Stop] of a running pool leaves it stopped with
    [Request], [Success], [Active] and [Available] all zero. On a stopped
    pool, [Stop] changes nothing and returns nil, and every [Get] returns
    [ErrClosed]; each such [Get] still adds one to [Request] and leaves
    [Success], [Active] and [Available] as they were. *)
Theorem Stop_then_closed w pid pl w1 e :
  pools w !! pid = Some pl → running pl = 1 → Stop pid w = Done w1 e →
  (∃ pl1, pools w1 !! pid = Some pl1 ∧ running pl1 = 0 ∧
          Request pl1 = 0 ∧ Success pl1 = 0 ∧ Active pl1 = 0 ∧ Available pl1 = 0) ∧
  (∀ w2 pl2, pools w2 !! pid = Some pl2 → running pl2 = 0 →
     Stop pid w2 = Done w2 None ∧
     ∀ fuel now, ∃ w3 pl3,
       Get fuel now pid w2 = Done w3 (None, Some ErrClosed) ∧
       pools w3 !! pid = Some pl3 ∧ running pl3 = 0 ∧
       Request pl3 = Request pl2 + 1 ∧ Success pl3 = Success pl2 ∧
       Active pl3 = Active pl2 ∧ Available pl3 = Available pl2).
Proof.
  intros Hpl Hrun Hstop. split.
  - destruct (wp_Done _ _ _ _ _ (Stop_running pid pl w Hpl Hrun) Hstop)
      as (pl1 & Hpl1 & Hr1 & Hc1 & Hs1 & _).
    exists pl1. unfold Request, Success, Active, Available, available.
    rewrite Hs1, Hc1. cbn. by repeat split.
  - intros w2 pl2 Hpl2 Hrun2. split; [by eapply Stop_stopped|].
    intros fuel now. eexists. exists (set_pstats (set_request inc) pl2).
    split; [by eapply Get_stopped|]. split.
    + cbn. by rewrite list_lookup_alter_eq, Hpl2.
    + repeat split; try done.
Qed.

Lemma Stop_then_closed_witness :
  ∃ pl1, pools w_stopped !! 0%nat = Some pl1 ∧ running pl1 = 0 ∧
         Request pl1 = 0 ∧ Success pl1 = 0 ∧ Active pl1 = 0 ∧ Available pl1 = 0.
Proof.
  refine (proj1 (Stop_then_closed w_got 0%nat _ w_stopped None _ _ _)); reflexivity.
Defined.

(** C2 as stated fails: after [Stop], a [Get] returns [ErrClosed] and the
    statistics then report one request. *)
Lemma Get_after_Stop_counts_request :
  reachable w_got ∧
  Stop 0%nat w_got = Done w_stopped None ∧
  ∃ w pl,
    Get 2 t1 0%nat w_stopped = Done w (None, Some ErrClosed) ∧
    pools w !! 0%nat = Some pl ∧ Request pl = 1 ∧ Request pl ≠ 0.
Proof.
  split; [apply reachable_w_got|].
  split; [reflexivity|]. eexists. eexists. split; [reflexivity|].
  split; [reflexivity|]. split; [reflexivity|]. discriminate.
Qed.

(** ** Close and put *)

Lemma Close_nil now a c w :
  heap w !! a = Some c → Conn c = None → Close now a w = Done w (Some ErrInvalidConn).
Proof. intros Hc Hn. unfold Close, bind, the_conn. by rewrite Hc, Hn. Qed.

Lemma Close_put now a c r w :
  heap w !! a = Some c → Conn c = Some r → Close now a w = put now (p c) a w.
Proof. intros Hc Hr. unfold Close, bind, the_conn. by rewrite Hc, Hr. Qed.

Lemma put_unusable now pid a c r pl w :
  pools w !! pid = Some pl → heap w !! a = Some c → Conn c = Some r → unUsable c = true →
  put now pid a w = Done (with_closed (λ l, l ++ [rid r]) w) (ErrExternal <$> close_err r).
Proof.
  intros Hpl Hc Hr Hu. unfold put, isUnUsable, bind, the_pool, the_conn, Conn_Close, ret.
  rewrite Hpl, Hc. cbn beta iota. rewrite Hc. cbn beta iota. by rewrite Hu, Hr.
Qed.

Lemma put_room now pid a c pl q w :
  pools w !! pid = Some pl → heap w !! a = Some c → unUsable c = false →
  conns pl = Some q → Z.of_nat (length q) < MaxSize (cfg pl) →
  put now pid a w
  = Done (with_heap (alter (set_lastUsed now) a)
            (with_pools (alter (set_conns (Some (q ++ [a]))) pid) w)) None.
Proof.
  intros Hpl Hc Hu Hq Hlt. unfold put, isUnUsable, bind, the_pool, the_conn, ret.
  rewrite Hpl, Hc. cbn beta iota. rewrite Hc. cbn beta iota. rewrite Hu, Hq. apply Z.ltb_lt in Hlt. by rewrite Hlt.
Qed.

Lemma put_full now pid a c r pl w :
  pools w !! pid = Some pl → heap w !! a = Some c → Conn c = Some r → unUsable c = false →
  (conns pl = None ∨ ∃ q, conns pl = Some q ∧ MaxSize (cfg pl) ≤ Z.of_nat (length q)) →
  put now pid a w
  = Done (with_closed (λ l, l ++ [rid r])
            (with_pools (alter (set_pstats (set_size dec)) pid) w))
         (ErrExternal <$> close_err r).
Proof.
  intros Hpl Hc Hr Hu Hfull. unfold put, isUnUsable, bind, the_pool, the_conn, Conn_Close, ret.
  rewrite Hpl, Hc. cbn beta iota. rewrite Hc. cbn beta iota. rewrite Hu, Hr. destruct Hfull as [->|(q & -> & Hge)]; [done|].
  apply Z.ltb_ge in Hge. by rewrite Hge.
Qed.

(** C5. [Close] of a wrapper with a nil connection returns the
    invalid-connection error and changes nothing. Otherwise it is [put] of
    the owning pool: for a wrapper marked unusable the transport connection
    is closed and nothing else changes (the size counter in particular); for
    a usable one, when the idle buffer has room the wrapper is appended to it
    and its [lastUsed] set to the current time; when it has none (full, or
    the channel is nil) the size counter is decremented and the transport
    connection closed. *)
Theorem Close_release now a c w :
  heap w !! a = Some c →
  (Conn c = None → Close now a w = Done w (Some ErrInvalidConn)) ∧
  (∀ r pl, Conn c = Some r → pools w !! p c = Some pl →
     Close now a w = put now (p c) a w ∧
     (unUsable c = true →
        Close now a w
        = Done (with_closed (λ l, l ++ [rid r]) w) (ErrExternal <$> close_err r)) ∧
     (unUsable c = false →
        ∀ q, conns pl = Some q → Z.of_nat (length q) < MaxSize (cfg pl) →
        Close now a w
        = Done (with_heap (alter (set_lastUsed now) a)
                  (with_pools (alter (set_conns (Some (q ++ [a]))) (p c)) w)) None) ∧
     (unUsable c = false →
        (conns pl = None ∨ ∃ q, conns pl = Some q ∧ MaxSize (cfg pl) ≤ Z.of_nat (length q)) →
        Close now a w
        = Done (with_closed (λ l, l ++ [rid r])
                  (with_pools (alter (set_pstats (set_size dec)) (p c)) w))
               (ErrExternal <$> close_err r))).
Proof.
  intros Hc. split; [by apply Close_nil|].
  intros r pl Hr Hpl. rewrite (Close_put now a c r w Hc Hr).
  split; [reflexivity|]. split; [|split].
  - intros Hu. by eapply put_unusable.
  - intros Hu q Hq Hlt. by eapply put_room.
  - intros Hu Hfull. by eapply put_full.
Qed.

Lemma Close_release_witness : Close t1 0%nat w_got = Done w_released None.
Proof.
  destruct (Close_release t1 0%nat _ w_got eq_refl) as [_ H].
  destruct (H _ _ eq_refl eq_refl) as (_ & _ & Hroom & _).
  exact (Hroom eq_refl [] eq_refl eq_refl).
Defined.

(** C4 (amended). Closing again a usable wrapper that already sits in the
    idle buffer is not idempotent. While the buffer has room the wrapper is
    appended once more, so the buffer holds it twice; the size counter stays
    as it was. When the buffer is full the size counter is decremented and
    the transport connection closed, the wrapper staying in the buffer. *)
Theorem Close_again now a c r pl q w :
  heap w !! a = Some c → Conn c = Some r → unUsable c = false →
  pools w !! p c = Some pl → conns pl = Some q → a ∈ q →
  (Z.of_nat (length q) < MaxSize (cfg pl) →
     ∃ w' pl', Close now a w = Done w' None ∧ pools w' !! p c = Some pl' ∧
               conns pl' = Some (q ++ [a]) ∧
               val (size (pstats pl')) = val (size (pstats pl)) ∧ closed w' = closed w) ∧
  (MaxSize (cfg pl) ≤ Z.of_nat (length q) →
     ∃ w' pl', Close now a w = Done w' (ErrExternal <$> close_err r) ∧
               pools w' !! p c = Some pl' ∧ conns pl' = Some q ∧
               val (size (pstats pl')) = val (size (pstats pl)) - 1 ∧
               closed w' = closed w ++ [rid r]).
Proof.
  intros Hc Hr Hu Hpl Hq Hin. rewrite (Close_put now a c r w Hc Hr). split.
  - intros Hlt. rewrite (put_room now _ a c pl q w Hpl Hc Hu Hq Hlt).
    eexists. eexists. split; [reflexivity|]. split.
    + cbn. by rewrite list_lookup_alter_eq, Hpl.
    + done.
  - intros Hge. erewrite put_full; [|exact Hpl|exact Hc|exact Hr|exact Hu|eauto].
    eexists. eexists. split; [reflexivity|]. split.
    + cbn. by rewrite list_lookup_alter_eq, Hpl.
    + done.
Qed.

Lemma Close_again_witness :
  ∃ w' pl', Close t2 0%nat w_released = Done w' None ∧ pools w' !! 0%nat = Some pl' ∧
            conns pl' = Some [0%nat; 0%nat] ∧ val (size (pstats pl')) = 1 ∧ closed w' = [].
Proof.
  refine (proj1 (Close_again t2 0%nat _ _ _ [0%nat] w_released eq_refl eq_refl eq_refl eq_refl
                   eq_refl _) eq_refl).
  apply list_elem_of_here.
Defined.

(** C4 as stated fails. In [w_released] wrapper 0 is in the idle buffer; a
    second [Close] puts it there a second time. In [w_one_released] the
    buffer of capacity one is full with wrapper 0; a second [Close]
    decrements the size counter from 1 to 0. *)
Lemma Close_twice_not_idempotent :
  reachable w_released ∧ reachable w_one_released ∧
  (∃ pl w' pl',
     pools w_released !! 0%nat = Some pl ∧ conns pl = Some [0%nat] ∧
     Close t2 0%nat w_released = Done w' None ∧
     pools w' !! 0%nat = Some pl' ∧ conns pl' = Some [0%nat; 0%nat]) ∧
  (∃ pl w' pl',
     pools w_one_released !! 0%nat = Some pl ∧ conns pl = Some [0%nat] ∧
     val (size (pstats pl)) = 1 ∧
     Close t2 0%nat w_one_released = Done w' None ∧
     pools w' !! 0%nat = Some pl' ∧ val (size (pstats pl')) = 0).
Proof.
  split; [apply reachable_w_released|]. split; [apply reachable_w_one_released|].
  split; do 3 eexists; repeat (split; [reflexivity|]); reflexivity.
Qed.

(** ** get: idle expiry *)

Lemma Get_running fuel now pid pl q w :
  pools w !! pid = Some pl → conns pl = Some q → running pl ≠ 0 →
  Get fuel now pid w = (do res <- get fuel now pid; updateStat pid res.2;; ret res) w.
Proof.
  intros Hpl Hq Hrun. unfold Get. unfold bind at 1, the_pool. rewrite Hpl, Hq.
  apply Z.eqb_neq in Hrun. by rewrite Hrun.
Qed.

Lemma get_expired fuel now pid pl a q c r w :
  pools w !! pid = Some pl → conns pl = Some (a :: q) → heap w !! a = Some c →
  Conn c = Some r → 0 < lastUsed c → lastUsed c < now - IdleTimeout (cfg pl) →
  get (S fuel) now pid w
  = (do res <- get fuel now pid; raw_close r;; ret res)
      (with_pools (alter (set_pstats (set_size dec)) pid)
         (with_pools (alter (set_conns (Some q)) pid) w)).
Proof.
  intros Hpl Hq Hc Hr Hpos Hold. simpl get. unfold bind at 1, the_pool. rewrite Hpl, Hq.
  unfold bind at 1, upd_pool, modify. unfold bind at 1, the_conn. cbn [heap with_pools].
  rewrite Hc, Hr.
  apply Z.gtb_lt in Hpos. apply Z.ltb_lt in Hold. rewrite Hpos, Hold. cbn [andb].
  unfold bind at 1. reflexivity.
Qed.

Lemma get_fresh fuel now pid pl a q c w :
  pools w !! pid = Some pl → conns pl = Some (a :: q) → heap w !! a = Some c →
  lastUsed c ≤ 0 ∨ now - IdleTimeout (cfg pl) ≤ lastUsed c →
  get (S fuel) now pid w
  = Done (with_pools (alter (set_conns (Some q)) pid) w) (Some a, None).
Proof.
  intros Hpl Hq Hc Hfresh. simpl get. unfold bind at 1, the_pool. rewrite Hpl, Hq.
  unfold bind at 1, upd_pool, modify. unfold bind at 1, the_conn. cbn [heap with_pools].
  rewrite Hc.
  destruct (Z.gtb_spec (lastUsed c) 0), (Z.ltb_spec (lastUsed c) (now - IdleTimeout (cfg pl)));
    try reflexivity. lia.
Qed.



(** ** Statistics *)

(** C8 (amended). In every state reachable through the public operations,
    [Available], [Request] and [Success] of every pool are not negative.
    ([Active] is left out: it can be negative.) *)
Theorem Stats_counters_nonneg w pid pl :
  reachable w → pools w !! pid = Some pl →
  0 ≤ Available pl ∧ 0 ≤ Request pl ∧ 0 ≤ Success pl.
Proof.
  intros Hreach Hpl.
  destruct (Inv_pool false pid pl w (reachable_by_Inv false w Hreach) Hpl)
    as [(_ & _ & Hrq & Hsc) _].
  split; [|by split]. unfold Available, available. destruct (conns pl); lia.
Qed.

Lemma Stats_counters_nonneg_witness :
  ∃ pl, pools w_got !! 0%nat = Some pl ∧
        0 ≤ Available pl ∧ 0 ≤ Request pl ∧ 0 ≤ Success pl.
Proof.
  eexists. split; [reflexivity|].
  exact (Stats_counters_nonneg w_got 0%nat _ reachable_w_got eq_refl).
Defined.

(** C8 as stated fails: after New, Get, Stop and then Close of the wrapper
    that was taken, the size counter is -1 while the channel is nil, so
    [Active] is -1. *)
Lemma Active_negative_after_Stop_Close :
  reachable w_closed_late ∧
  ∃ pl, pools w_closed_late !! 0%nat = Some pl ∧
        val (size (pstats pl)) = -1 ∧ Available pl = 0 ∧ Active pl = -1 ∧ Active pl < 0.
Proof.
  split; [apply reachable_w_closed_late|].
  eexists. repeat (split; [reflexivity|]). reflexivity.
Qed.

(** ** Unusable wrappers and the idle buffer *)

(** C10 (amended). In every state reached by callers that apply
    [MarkUnusable] only to wrappers outside every idle buffer, each wrapper in
    an idle buffer has its unusable flag unset, and a wrapper handed out by
    [Get] has its flag unset. *)
Theorem idle_wrappers_usable w :
  reachable_by true w →
  (∀ pid pl q a, pools w !! pid = Some pl → conns pl = Some q → a ∈ q →
     ∃ c, heap w !! a = Some c ∧ unUsable c = false) ∧
  (∀ fuel now pid w' a e, Get fuel now pid w = Done w' (Some a, e) →
     ∃ c, heap w' !! a = Some c ∧ unUsable c = false).
Proof.
  intros Hreach. pose proof (reachable_by_Inv true w Hreach) as HI. split.
  - intros pid pl q a Hpl Hq Ha.
    destruct (Inv_pool true pid pl w HI Hpl) as [_ Hch].
    destruct (Hch q Hq a Ha) as (c & Hc & Hu). exists c. by split; [|apply Hu].
  - intros fuel now pid w' a e Hget.
    destruct (wp_Done _ _ _ _ _ (Get_Inv true fuel now pid w HI) Hget) as [_ Hres].
    destruct (Hres a eq_refl) as (c & Hc & Hu). exists c. by split; [|apply Hu].
Qed.

Lemma idle_wrappers_usable_witness :
  ∃ c, heap w_released !! 0%nat = Some c ∧ unUsable c = false.
Proof.
  refine (proj1 (idle_wrappers_usable w_released disciplined_w_released)
            0%nat _ [0%nat] 0%nat eq_refl eq_refl _).
  apply list_elem_of_here.
Defined.

(** C10 as stated fails: marking the released wrapper leaves it in the idle
    buffer with its flag set, and the next [Get] hands it out. *)
Lemma marked_wrapper_stays_idle :
  reachable w_marked_idle ∧
  ∃ pl c w',
    pools w_marked_idle !! 0%nat = Some pl ∧ conns pl = Some [0%nat] ∧
    heap w_marked_idle !! 0%nat = Some c ∧ unUsable c = true ∧
    Get 2 t2 0%nat w_marked_idle = Done w' (Some 0%nat, None).
Proof.
  split; [apply reachable_w_marked_idle|].
  do 3 eexists. repeat (split; [reflexivity|]). reflexivity.
Qed.

(** ** MarkUnusable *)

(** Properties of the world that every elementary update keeps are kept by
    every operation. *)
Section footprint.
Context (P : world → Prop).
Hypothesis P_pools : ∀ f w, P w → P (with_pools f w).
Hypothesis P_closed : ∀ f w, P w → P (with_closed f w).
Hypothesis P_counter : ∀ f w, P w → P (with_counter f w).
Hypothesis P_alloc : ∀ c w, P w → P (with_heap (λ h, h ++ [c]) w).
Hypothesis P_mark : ∀ a w, P w → P (with_heap (alter (set_unUsable true) a) w).
Hypothesis P_stamp : ∀ t a w, P w → P (with_heap (alter (set_lastUsed t) a) w).

Lemma addConnections_loop_keeps n pid w :
  P w → wp (addConnections_loop n pid) (λ _ w', P w') w.
Proof.
  revert w. induction n as [|n IH]; intros w HP; simpl; [by rewrite wp_ret|].
  rewrite wp_bind. apply wp_the_pool. intros pl _.
  destruct (val (size (pstats pl)) >=? MaxSize (cfg pl)); [by rewrite wp_ret|].
  rewrite wp_bind, wp_upd_pool.
  destruct (factory pl (fcalls pl)); [|rewrite wp_ret; by apply P_pools].
  rewrite wp_bind, wp_newConn, wp_bind. unfold chan_send.
  rewrite wp_bind. apply wp_the_pool. intros pl' _.
  destruct (conns pl') as [q|]; [|exact I].
  destruct (Z.of_nat (length q) <? MaxSize (cfg pl')); [|exact I].
  rewrite wp_upd_pool, wp_bind, wp_upd_pool. apply IH. auto.
Qed.

Lemma addConnections_keeps n pid w :
  P w → wp (addConnections n pid) (λ _ w', P w') w.
Proof.
  intros HP. unfold addConnections. rewrite wp_bind. apply wp_the_pool. intros _ _.
  by apply addConnections_loop_keeps.
Qed.

Lemma get_keeps fuel now pid w :
  P w → wp (get fuel now pid) (λ _ w', P w') w.
Proof.
  revert w. induction fuel as [|fuel IH]; intros w HP; [exact I|].
  simpl. rewrite wp_bind. apply wp_the_pool. intros pl _.
  assert (Htry : wp (tryGet_with (get fuel now pid) pid) (λ _ w', P w') w).
  { unfold tryGet_with. rewrite wp_bind. apply wp_the_pool. intros pl' _.
    destruct (val (size (pstats pl')) <? MaxSize (cfg pl')); [|by rewrite wp_ret].
    rewrite wp_bind. eapply wp_mono; [|by apply addConnections_keeps].
    intros [e|] w' HP'; cbn beta iota; [by rewrite wp_ret|by apply IH]. }
  destruct (conns pl) as [[|a q]|]; try exact Htry.
  rewrite wp_bind, wp_upd_pool, wp_bind. apply wp_the_conn. intros c _.
  destruct ((lastUsed c >? 0) && (lastUsed c <? now - IdleTimeout (cfg pl)));
    [|rewrite wp_ret; by apply P_pools].
  destruct (Conn c) as [r|]; [|exact I].
  rewrite wp_bind, wp_upd_pool, wp_bind.
  eapply wp_mono; [|apply IH; auto].
  intros res w' HP'. rewrite wp_bind, wp_raw_close, wp_ret. by apply P_closed.
Qed.

Lemma updateStat_keeps pid err w :
  P w → wp (updateStat pid err) (λ _ w', P w') w.
Proof.
  intros HP. unfold updateStat. rewrite wp_bind, wp_upd_pool.
  destruct err; [rewrite wp_ret|rewrite wp_upd_pool]; auto.
Qed.

Lemma Get_keeps fuel now pid w :
  P w → wp (Get fuel now pid) (λ _ w', P w') w.
Proof.
  intros HP. unfold Get. rewrite wp_bind. apply wp_the_pool. intros pl _.
  rewrite wp_bind.
  assert (Hclosed : wp (ret (@None nat, Some ErrClosed))
            (λ res w', wp (updateStat pid res.2;; ret res) (λ _ w'', P w'') w') w).
  { rewrite wp_ret, wp_bind. eapply wp_mono; [|by apply updateStat_keeps].
    intros u w' HP'. by rewrite wp_ret. }
  destruct (conns pl); [|exact Hclosed].
  destruct (running pl =? 0); [exact Hclosed|].
  eapply wp_mono; [|by apply get_keeps].
  intros res w' HP'. rewrite wp_bind.
  eapply wp_mono; [|by apply updateStat_keeps].
  intros u w'' HP''. by rewrite wp_ret.
Qed.

Lemma MarkUnusable_keeps pid c w :
  P w → wp (MarkUnusable pid c) (λ _ w', P w') w.
Proof.
  intros HP. destruct c as [|a|r]; [exact HP| |exact HP].
  unfold MarkUnusable, markUnusable.
  rewrite !wp_bind. apply wp_the_conn. intros c _.
  rewrite wp_upd_conn, wp_bind. apply wp_the_pool. intros pl _.
  rewrite wp_upd_pool. auto.
Qed.

Lemma drain_keeps q msgs w :
  P w → wp (drain q msgs) (λ _ w', P w') w.
Proof.
  revert msgs w. induction q as [|a q IH]; intros msgs w HP; simpl; [by rewrite wp_ret|].
  rewrite wp_bind. apply wp_the_conn. intros c _.
  destruct (Conn c) as [r|]; [|by apply IH].
  rewrite wp_bind, wp_raw_close.
  destruct (ErrExternal <$> close_err r); apply IH; auto.
Qed.

Lemma Stop_keeps pid w :
  P w → wp (Stop pid) (λ _ w', P w') w.
Proof.
  intros HP. unfold Stop. rewrite wp_bind. apply wp_the_pool. intros pl _.
  destruct (running pl =? 1); [|by rewrite wp_ret].
  rewrite wp_bind, wp_upd_pool, wp_bind, wp_upd_pool.
  destruct (conns pl) as [q|]; [|exact I].
  rewrite wp_bind. eapply wp_mono; [|apply drain_keeps; auto].
  intros msgs w' HP'. rewrite wp_bind, wp_upd_pool.
  destruct (0 <? length msgs)%nat; rewrite wp_ret; auto.
Qed.

Lemma Close_keeps now a w :
  P w → wp (Close now a) (λ _ w', P w') w.
Proof.
  intros HP. unfold Close. rewrite wp_bind. apply wp_the_conn. intros c _.
  destruct (Conn c) as [r|] eqn:Hr; [|by rewrite wp_ret].
  unfold put. rewrite wp_bind. apply wp_the_pool. intros pl _.
  rewrite wp_bind. apply wp_the_conn. intros c' _.
  unfold isUnUsable. rewrite !wp_bind. apply wp_the_conn. intros c'' _. rewrite wp_ret.
  assert (Hclose : ∀ w1, P w1 → wp (Conn_Close c') (λ _ w', P w') w1).
  { intros w1 HP1. unfold Conn_Close. destruct (Conn c'); [|exact I].
    rewrite wp_raw_close. auto. }
  assert (Hfull : wp (upd_pool (p c) (set_pstats (set_size dec));; Conn_Close c')
                     (λ _ w', P w') w).
  { rewrite wp_bind, wp_upd_pool. auto. }
  destruct (unUsable c''); [auto|].
  destruct (conns pl) as [q|]; [|exact Hfull].
  destruct (Z.of_nat (length q) <? MaxSize (cfg pl)); [|exact Hfull].
  rewrite wp_bind, wp_upd_pool, wp_bind, wp_upd_conn, wp_ret. auto.
Qed.

Lemma New_keeps c f options w :
  P w → wp (New c f options) (λ _ w', P w') w.
Proof.
  intros HP. unfold New. destruct f as [f|]; [|by rewrite wp_ret].
  destruct (validate c); [by rewrite wp_ret|].
  rewrite wp_bind. unfold wp at 1, alloc_pool. rewrite wp_bind.
  assert (Hopts : ∀ w1, P w1 →
            wp (apply_options options (length (pools w))) (λ _ w', P w') w1).
  { induction options as [|[nm] options IH]; intros w1 HP1; simpl; [by rewrite wp_ret|].
    rewrite !wp_bind, wp_upd_pool, wp_ret. auto. }
  eapply wp_mono; [|apply Hopts; auto].
  intros [e|] w1 HP1; [by rewrite wp_ret|].
  rewrite wp_bind. apply wp_the_pool. intros pl _. rewrite wp_bind.
  assert (Hstart : ∀ w2, P w2 →
            wp (do err <- start (length (pools w));
                match err with
                | Some _ => ret (Some (length (pools w)), @None error)
                | None => ret (Some (length (pools w)), @None error)
                end) (λ _ w', P w') w2).
  { intros w2 HP2. rewrite wp_bind. unfold start. rewrite wp_bind.
    apply wp_the_pool. intros pl' _.
    destruct (running pl' =? 0).
    - rewrite wp_bind, wp_upd_pool.
      eapply wp_mono; [|apply addConnections_keeps; auto].
      intros [e|] w3 HP3; by rewrite wp_ret.
    - by rewrite !wp_ret. }
  destruct (String.eqb (name pl) "").
  - rewrite wp_bind. unfold wp at 1, connPoolCounter_inc. rewrite wp_upd_pool. auto.
  - rewrite wp_ret. auto.
Qed.

Lemma exec_keeps c w : P w → wp (exec c) (λ _ w', P w') w.
Proof.
  intros HP. destruct c as [c f o|fuel now pid|now a|pid c|pid]; cbn [exec].
  - rewrite wp_bind. eapply wp_mono; [|by apply New_keeps]. intros. by rewrite wp_ret.
  - rewrite wp_bind. eapply wp_mono; [|by apply Get_keeps]. intros. by rewrite wp_ret.
  - rewrite wp_bind. eapply wp_mono; [|by apply Close_keeps]. intros. by rewrite wp_ret.
  - by apply MarkUnusable_keeps.
  - rewrite wp_bind. eapply wp_mono; [|by apply Stop_keeps]. intros. by rewrite wp_ret.
Qed.

End footprint.

Lemma marked_persists a c w w' :
  marked a w → exec c w = Done w' tt → marked a w'.
Proof.
  intros Hm Hex.
  refine (wp_Done _ _ _ _ _ (exec_keeps (marked a) _ _ _ _ _ _ c w Hm) Hex);
    clear; try (intros f w H; exact H).
  - intros c w (c' & Hc' & Hu). exists c'. split; [|exact Hu]. by apply lookup_app_l_Some.
  - intros a' w (c' & Hc' & Hu). destruct (decide (a' = a)) as [->|Hne].
    + exists (set_unUsable true c'). split; [|reflexivity].
      cbn. by rewrite list_lookup_alter_eq, Hc'.
    + exists c'. split; [|exact Hu]. cbn. by rewrite list_lookup_alter_ne.
  - intros t a' w (c' & Hc' & Hu). destruct (decide (a' = a)) as [->|Hne].
    + exists (set_lastUsed t c'). split; [|exact Hu].
      cbn. by rewrite list_lookup_alter_eq, Hc'.
    + exists c'. split; [|exact Hu]. cbn. by rewrite list_lookup_alter_ne.
Qed.

Lemma MarkUnusable_wrapper pid pl a c w :
  pools w !! pid = Some pl → heap w !! a = Some c →
  MarkUnusable pid (Wrapper a) w
  = Done (with_pools (alter (set_pstats (set_size dec)) pid)
            (with_heap (alter (set_unUsable true) a) w)) tt.
Proof.
  intros Hpl Hc. unfold MarkUnusable, markUnusable, bind, the_conn, the_pool.
  rewrite Hc. cbn. by rewrite Hpl.
Qed.

(** C7 (amended). [MarkUnusable] on a wrapper of this package, whichever
    pool made it, sets the wrapper's unusable flag and decrements the size
    counter of the pool it is called on; nothing else changes. On nil or on
    a connection that is not such a wrapper it changes nothing. No public
    operation clears the flag of a marked wrapper. *)
Theorem MarkUnusable_effect pid pl w :
  pools w !! pid = Some pl →
  (∀ a c, heap w !! a = Some c →
     MarkUnusable pid (Wrapper a) w
     = Done (with_pools (alter (set_pstats (set_size dec)) pid)
               (with_heap (alter (set_unUsable true) a) w)) tt ∧
     marked a (with_pools (alter (set_pstats (set_size dec)) pid)
                 (with_heap (alter (set_unUsable true) a) w))) ∧
  MarkUnusable pid NilConn w = Done w tt ∧
  (∀ r, MarkUnusable pid (Foreign r) w = Done w tt) ∧
  (∀ a c w1 w2, marked a w1 → exec c w1 = Done w2 tt → marked a w2).
Proof.
  intros Hpl. split; [|split; [reflexivity|split; [reflexivity|]]].
  - intros a c Hc. split; [by eapply MarkUnusable_wrapper|].
    exists (set_unUsable true c). split; [|reflexivity].
    cbn. by rewrite list_lookup_alter_eq, Hc.
  - intros a c w1 w2. apply marked_persists.
Qed.

Lemma MarkUnusable_effect_witness :
  MarkUnusable 0%nat (Wrapper 0%nat) w_got
  = Done (with_pools (alter (set_pstats (set_size dec)) 0%nat)
            (with_heap (alter (set_unUsable true) 0%nat) w_got)) tt.
Proof.
  exact (proj1 (proj1 (MarkUnusable_effect 0%nat _ w_got eq_refl) 0%nat _ eq_refl)).
Defined.

(** C7 as stated fails. In [w_two] wrapper 0 was made by pool 0 and is held
    by a caller; pool 1 has size 1. [MarkUnusable] of pool 1 on that wrapper
    sets its flag and takes the size counter of pool 1 to 0. *)
Lemma MarkUnusable_other_pool_wrapper :
  reachable w_two ∧
  ∃ c pl w' c' pl',
    heap w_two !! 0%nat = Some c ∧ p c = 0%nat ∧ p c ≠ 1%nat ∧ unUsable c = false ∧
    pools w_two !! 1%nat = Some pl ∧ val (size (pstats pl)) = 1 ∧
    MarkUnusable 1%nat (Wrapper 0%nat) w_two = Done w' tt ∧
    heap w' !! 0%nat = Some c' ∧ unUsable c' = true ∧
    pools w' !! 1%nat = Some pl' ∧ val (size (pstats pl')) = 0.
Proof.
  split; [apply reachable_w_two|].
  do 5 eexists. repeat (split; [reflexivity || discriminate|]). reflexivity.
Qed.

(** ** Growth *)

Lemma addConnections_loop_S n pid pl w :
  pools w !! pid = Some pl →
  addConnections_loop (S n) pid w
  = if val (size (pstats pl)) >=? MaxSize (cfg pl) then Done w None
    else match factory pl (fcalls pl) with
         | DialFailed e =>
             Done (with_pools (alter (set_fcalls (S (fcalls pl))) pid) w) (Some (ErrExternal e))
         | Dialed c =>
             match conns pl with
             | Some q =>
                 if Z.of_nat (length q) <? MaxSize (cfg pl)
                 then addConnections_loop n pid
                        (with_pools (alter (set_pstats (set_size inc)) pid)
                           (with_pools (alter (set_conns (Some (q ++ [length (heap w)]))) pid)
                              (with_heap (λ h, h ++ [fresh_conn pid c])
                                 (with_pools (alter (set_fcalls (S (fcalls pl))) pid) w))))
                 else Block
             | None => Block
             end
         end.
Proof.
  intros Hpl. simpl addConnections_loop. unfold bind at 1, the_pool. rewrite Hpl.
  destruct (val (size (pstats pl)) >=? MaxSize (cfg pl)); [reflexivity|].
  unfold bind at 1, upd_pool, modify.
  destruct (factory pl (fcalls pl)) as [c|e]; [|reflexivity].
  unfold bind at 1, newConn. unfold bind at 1, chan_send. unfold bind at 1, the_pool.
  cbn [pools heap with_pools with_heap]. rewrite list_lookup_alter_eq, Hpl.
  cbn [fmap option_fmap option_map conns set_fcalls cfg].
  destruct (conns pl) as [q|]; [|reflexivity].
  destruct (Z.of_nat (length q) <? MaxSize (cfg pl)); [|reflexivity].
  unfold bind at 1. reflexivity.
Qed.

(** What the loop of [addConnections] does when the buffer can take [n] more
    wrappers: it finishes, having made some [cs], at most [n], connections. *)
Lemma addConnections_loop_spec n pid :
  ∀ w pl q,
    pools w !! pid = Some pl → conns pl = Some q →
    Z.of_nat (length q) + Z.of_nat n ≤ MaxSize (cfg pl) →
    ∃ w' e cs pl',
      addConnections_loop n pid w = Done w' e ∧
      (length cs ≤ n)%nat ∧
      heap w' = heap w ++ map (fresh_conn pid) cs ∧
      pools w' !! pid = Some pl' ∧
      cfg pl' = cfg pl ∧ running pl' = running pl ∧
      conns pl' = Some (q ++ seq (length (heap w)) (length cs)) ∧
      val (size (pstats pl')) = val (size (pstats pl)) + Z.of_nat (length cs) ∧
      (fcalls pl ≤ fcalls pl' ≤ fcalls pl + n)%nat ∧
      val (size (pstats pl')) ≤ Z.max (val (size (pstats pl))) (MaxSize (cfg pl)) ∧
      (e = None → val (size (pstats pl)) < MaxSize (cfg pl) → (0 < n)%nat →
       (0 < length cs)%nat).
Proof.
  induction n as [|n IH]; intros w pl q Hpl Hq Hcap.
  - exists w, None, [], pl. cbn. rewrite !app_nil_r.
    repeat split; try done; try lia.
  - rewrite (addConnections_loop_S n pid pl w Hpl).
    destruct (Z.geb_spec (val (size (pstats pl))) (MaxSize (cfg pl))) as [Hge|Hlt].
    { exists w, None, [], pl. cbn. rewrite !app_nil_r.
      repeat split; try done; try lia. }
    destruct (factory pl (fcalls pl)) as [c|e].
    + rewrite Hq.
      destruct (Z.ltb_spec (Z.of_nat (length q)) (MaxSize (cfg pl))) as [Hroom|Hno]; [|lia].
      match goal with |- context [addConnections_loop n pid ?w0] => set (w1 := w0) end.
      set (pl1 := set_pstats (set_size inc)
                    (set_conns (Some (q ++ [length (heap w)]))
                       (set_fcalls (S (fcalls pl)) pl))).
      assert (Hpl1 : pools w1 !! pid = Some pl1).
      { unfold w1. cbn. rewrite !list_lookup_alter_eq, Hpl. reflexivity. }
      destruct (IH w1 pl1 (q ++ [length (heap w)]) Hpl1 eq_refl) as
        (w' & e & cs & pl' & Hrun & Hlen & Hheap & Hpl' & Hcfg & Hrn & Hconns & Hsize
           & Hfc & Hmax & Hpos).
      { cbn. rewrite length_app. cbn. lia. }
      exists w', e, (c :: cs), pl'. split; [exact Hrun|].
      split; [cbn; lia|]. split.
      { rewrite Hheap. unfold w1. cbn. by rewrite <- app_assoc. }
      split; [exact Hpl'|]. split; [by rewrite Hcfg|]. split; [by rewrite Hrn|].
      split.
      { rewrite Hconns. unfold w1. cbn. rewrite length_app. cbn.
        rewrite <- app_assoc. cbn. by rewrite Nat.add_1_r. }
      split.
      { rewrite Hsize. cbn. unfold_counters. lia. }
      split; [cbn in Hfc; lia|]. split.
      { cbn in Hmax. unfold_counters. lia. }
      intros _ _ _. cbn. lia.
    + eexists. exists (Some (ErrExternal e)), [], (set_fcalls (S (fcalls pl)) pl).
      split; [reflexivity|]. cbn. rewrite !app_nil_r.
      rewrite list_lookup_alter_eq, Hpl.
      repeat split; try done; try lia.
Qed.

Lemma tryGet_amount inc_ sz mx :
  (if inc_ + sz >? mx then mx - sz else inc_) = Z.min inc_ (mx - sz).
Proof. destruct (Z.gtb_spec (inc_ + sz) mx); lia. Qed.

Lemma get_empty fuel now pid pl w :
  pools w !! pid = Some pl → conns pl = Some [] →
  get (S fuel) now pid w = tryGet fuel now pid w.
Proof.
  intros Hpl Hq. simpl get. unfold bind at 1, the_pool. by rewrite Hpl, Hq.
Qed.

Lemma tryGet_exhausted fuel now pid pl w :
  pools w !! pid = Some pl → MaxSize (cfg pl) ≤ val (size (pstats pl)) →
  tryGet fuel now pid w = Done w (None, Some ErrExhausted).
Proof.
  intros Hpl Hge. unfold tryGet, tryGet_with, bind, the_pool. rewrite Hpl.
  apply Z.ltb_ge in Hge. by rewrite Hge.
Qed.

Lemma tryGet_grows fuel now pid pl w :
  pools w !! pid = Some pl → val (size (pstats pl)) < MaxSize (cfg pl) →
  tryGet fuel now pid w
  = (do err <- addConnections
                 (Z.min (Increment (cfg pl)) (MaxSize (cfg pl) - val (size (pstats pl)))) pid;
     match err with
     | Some e => ret (None, Some e)
     | None => get fuel now pid
     end) w.
Proof.
  intros Hpl Hlt. unfold tryGet, tryGet_with. unfold bind at 1, the_pool. rewrite Hpl.
  apply Z.ltb_lt in Hlt. rewrite Hlt. by rewrite tryGet_amount.
Qed.

Lemma addConnections_spec n pid pl w :
  pool_ok pl → pools w !! pid = Some pl → conns pl = Some [] →
  n ≤ Increment (cfg pl) →
  ∃ w' e cs pl',
    addConnections n pid w = Done w' e ∧
    (length cs ≤ Z.to_nat n)%nat ∧
    heap w' = heap w ++ map (fresh_conn pid) cs ∧
    pools w' !! pid = Some pl' ∧
    cfg pl' = cfg pl ∧ running pl' = running pl ∧
    conns pl' = Some (seq (length (heap w)) (length cs)) ∧
    val (size (pstats pl')) = val (size (pstats pl)) + Z.of_nat (length cs) ∧
    (fcalls pl ≤ fcalls pl' ≤ fcalls pl + Z.to_nat n)%nat ∧
    val (size (pstats pl')) ≤ MaxSize (cfg pl) ∧
    (e = None → val (size (pstats pl)) < MaxSize (cfg pl) → 0 < n → (0 < length cs)%nat).
Proof.
  intros (Hv & Hsz & _ & _) Hpl Hq Hn.
  destruct (validate_None _ Hv) as (Hmin & Hmax & Hmm & Hinc).
  destruct (addConnections_loop_spec (Z.to_nat n) pid w pl [] Hpl Hq) as
    (w' & e & cs & pl' & Hrun & Hlen & Hheap & Hpl' & Hcfg & Hrn & Hconns & Hsize
       & Hfc & Hbound & Hpos).
  { cbn. lia. }
  exists w', e, cs, pl'. split.
  { unfold addConnections, bind, the_pool. by rewrite Hpl. }
  repeat split; try done; try lia.
  intros He Hlt Hn0. apply Hpos; [done|done|lia].
Qed.



(** ** Termination of Get *)

Lemma get_zero_increment_diverges fuel now : get fuel now 0%nat w_zero = OutOfFuel.
Proof.
  induction fuel as [|fuel IH]; [reflexivity|].
  rewrite (get_empty fuel now 0%nat _ w_zero eq_refl eq_refl).
  rewrite (tryGet_grows fuel now 0%nat _ w_zero eq_refl eq_refl).
  unfold bind.
  change (addConnections
            (Z.min (Increment (cfg_zero_inc)) (MaxSize cfg_zero_inc - 0)) 0%nat w_zero)
    with (Done w_zero (@None error)).
  exact IH.
Qed.

(** C9 (the code departs from the claim). [validate] accepts
    [cfg_zero_inc], whose increment is 0. On the pool [New] builds from it the
    idle buffer is empty and the size counter 0 is below [MaxSize]; [tryGet]
    then adds no connection and calls [get] again, which calls [tryGet]
    again, without end: whatever the recursion budget, [Get] does not
    return. *)
Theorem Get_diverges_zero_increment :
  validate cfg_zero_inc = None ∧
  New cfg_zero_inc (Some dial_ok) [] init_world = Done w_zero (Some 0%nat, None) ∧
  reachable w_zero ∧
  ∀ fuel now, Get fuel now 0%nat w_zero = OutOfFuel.
Proof.
  split; [reflexivity|]. split; [reflexivity|]. split.
  - apply (reach_step false init_world (CallNew cfg_zero_inc (Some dial_ok) []) w_zero);
      [apply reach_init|exact I|exact I|reflexivity].
  - intros fuel now.
    rewrite (Get_running fuel now 0%nat _ [] w_zero eq_refl eq_refl ltac:(discriminate)).
    unfold bind at 1. by rewrite get_zero_increment_diverges.
Qed.



(** * Further properties of the package *)

(** ** Capacity *)

(** X1. In every reachable world the connections a pool accounts for, those
    in use plus those idle, never exceed [MaxSize]; so neither does [Active]
    alone. This is what the package's tests assert of [Stats]. *)
Theorem Active_Available_bounded w pid pl :
  reachable w → pools w !! pid = Some pl →
  Active pl + Available pl ≤ MaxSize (cfg pl) ∧ Active pl ≤ MaxSize (cfg pl).
Proof.
  intros Hreach Hpl.
  destruct (Inv_pool false pid pl w (reachable_by_Inv false w Hreach) Hpl)
    as [(_ & Hsz & _ & _) _].
  unfold Active, Available, available in *. unfold_counters.
  destruct (conns pl); lia.
Qed.

Lemma Active_Available_bounded_witness :
  ∃ pl, pools w_released !! 0%nat = Some pl ∧
        Active pl + Available pl ≤ MaxSize (cfg pl) ∧ Active pl ≤ MaxSize (cfg pl).
Proof.
  eexists. split; [reflexivity|].
  exact (Active_Available_bounded w_released 0%nat _ reachable_w_released eq_refl).
Defined.

(** ** Wrappers keep their connection and their owner *)

Lemma wrapper_fixed_step a r o c w w' :
  wrapper_has a (λ x, Conn x = r ∧ p x = o) w → exec c w = Done w' tt →
  wrapper_has a (λ x, Conn x = r ∧ p x = o) w'.
Proof.
  intros Hm Hex.
  refine (wp_Done _ _ _ _ _
            (exec_keeps (wrapper_has a (λ x, Conn x = r ∧ p x = o)) _ _ _ _ _ _ c w Hm) Hex);
    clear; try (intros f w H; exact H).
  - intros c w (c' & Hc' & Hq). exists c'. split; [|exact Hq]. by apply lookup_app_l_Some.
  - intros a' w (c' & Hc' & Hq). destruct (decide (a' = a)) as [->|Hne].
    + exists (set_unUsable true c'). split; [|exact Hq].
      cbn. by rewrite list_lookup_alter_eq, Hc'.
    + exists c'. split; [|exact Hq]. cbn. by rewrite list_lookup_alter_ne.
  - intros t a' w (c' & Hc' & Hq). destruct (decide (a' = a)) as [->|Hne].
    + exists (set_lastUsed t c'). split; [|exact Hq].
      cbn. by rewrite list_lookup_alter_eq, Hc'.
    + exists c'. split; [|exact Hq]. cbn. by rewrite list_lookup_alter_ne.
Qed.

(** X2. Whatever public calls follow, a wrapper keeps the transport
    connection and the owning pool it was created with: the package never
    sets [Conn] to nil and never moves a wrapper to another pool. In
    particular a wrapper made around a nil connection (a factory returning
    [nil, nil]) can never be released: its [Close] returns the
    invalid-connection error in every later state and changes nothing. *)
Theorem wrapper_conn_owner_fixed a c w w' :
  steps w w' → heap w !! a = Some c →
  ∃ c', heap w' !! a = Some c' ∧ Conn c' = Conn c ∧ p c' = p c ∧
        (Conn c = None → ∀ now, Close now a w' = Done w' (Some ErrInvalidConn)).
Proof.
  intros Hsteps Hc.
  assert (Hw : wrapper_has a (λ x, Conn x = Conn c ∧ p x = p c) w') .
  { assert (H0 : wrapper_has a (λ x, Conn x = Conn c ∧ p x = p c) w) by (by exists c).
    clear Hc. induction Hsteps as [w|w cl w1 w2 Hex _ IH]; [exact H0|].
    apply IH. by eapply wrapper_fixed_step. }
  destruct Hw as (c' & Hc' & HC & Hp). exists c'. repeat split; try done.
  intros Hnil now. apply (Close_nil now a c' w' Hc'). by rewrite HC.
Qed.

Lemma wrapper_conn_owner_fixed_witness :
  ∃ c', heap w_released !! 0%nat = Some c' ∧
        Conn c' = Some {| rid := 0; close_err := None |} ∧ p c' = 0%nat.
Proof.
  destruct (wrapper_conn_owner_fixed 0%nat (fresh_conn 0%nat (Some {| rid := 0; close_err := None |}))
              w_new w_released) as (c' & Hc' & HC & Hp & _).
  - apply (steps_step w_new (CallGet 2 t0 0%nat) w_got); [reflexivity|].
    apply (steps_step w_got (CallClose t1 0%nat) w_released); [reflexivity|].
    apply steps_refl.
  - reflexivity.
  - exists c'. by repeat split.
Defined.

(** ** Operations one after the other *)

(** X3. Marking a wrapper unusable and then closing it closes its
    transport connection once, decrements the size counter of the marking
    pool once, and leaves the idle buffer of every pool as it was: the
    wrapper does not come back into a buffer. The error of the transport
    [Close] is what the wrapper's [Close] returns. *)
Theorem MarkUnusable_then_Close pid pl owner now a c r w :
  pools w !! pid = Some pl → heap w !! a = Some c → Conn c = Some r →
  pools w !! p c = Some owner →
  ∃ w',
    (MarkUnusable pid (Wrapper a);; Close now a) w
    = Done w' (ErrExternal <$> close_err r) ∧
    closed w' = closed w ++ [rid r] ∧
    marked a w' ∧
    (∃ pl', pools w' !! pid = Some pl' ∧
            val (size (pstats pl')) = val (size (pstats pl)) - 1) ∧
    (∀ j plj, pools w !! j = Some plj →
       ∃ plj', pools w' !! j = Some plj' ∧ conns plj' = conns plj).
Proof.
  intros Hpl Hc Hr Hown.
  set (w1 := with_pools (alter (set_pstats (set_size dec)) pid)
               (with_heap (alter (set_unUsable true) a) w)).
  assert (Hc1 : heap w1 !! a = Some (set_unUsable true c)).
  { unfold w1. cbn. by rewrite list_lookup_alter_eq, Hc. }
  assert (Hown1 : ∃ o1, pools w1 !! p c = Some o1).
  { unfold w1. cbn. destruct (decide (pid = p c)) as [<-|Hne].
    - rewrite list_lookup_alter_eq, Hpl. eauto.
    - rewrite list_lookup_alter_ne by done. eauto. }
  destruct Hown1 as [o1 Ho1].
  exists (with_closed (λ l, l ++ [rid r]) w1). split; [|split; [|split; [|split]]].
  - unfold bind. rewrite (MarkUnusable_wrapper pid pl a c w Hpl Hc). fold w1.
    rewrite (Close_put now a (set_unUsable true c) r w1 Hc1 Hr).
    by apply (put_unusable now _ a (set_unUsable true c) r o1 w1).
  - reflexivity.
  - exists (set_unUsable true c). by split.
  - eexists. split; [cbn; by rewrite list_lookup_alter_eq, Hpl|]. reflexivity.
  - intros j plj Hj. cbn. destruct (decide (pid = j)) as [->|Hne].
    + rewrite list_lookup_alter_eq, Hj. eauto.
    + rewrite list_lookup_alter_ne by done. eauto.
Qed.

Lemma MarkUnusable_then_Close_witness :
  ∃ w',
    (MarkUnusable 0%nat (Wrapper 0%nat);; Close t1 0%nat) w_got = Done w' None ∧
    closed w' = [0%nat] ∧ marked 0%nat w'.
Proof.
  destruct (MarkUnusable_then_Close 0%nat _ _ t1 0%nat _ _ w_got eq_refl eq_refl eq_refl eq_refl)
    as (w' & Hrun & Hcl & Hm & _).
  exists w'. by repeat split.
Defined.

(** X4. A released wrapper is the one handed out next: when a usable
    wrapper is closed into the empty idle buffer of its running pool and
    [Get] is called before the idle timeout has passed, [Get] returns that
    same wrapper. No transport connection is closed, the factory is not
    called, the buffer is empty again, the size counter is unchanged, and
    [Request] and [Success] have each grown by one. *)
Theorem Close_then_Get_reuses fuel now now' a c r pl w :
  heap w !! a = Some c → Conn c = Some r → unUsable c = false →
  pools w !! p c = Some pl → running pl ≠ 0 → conns pl = Some [] →
  0 < MaxSize (cfg pl) →
  now ≤ 0 ∨ now' - IdleTimeout (cfg pl) ≤ now →
  ∃ w' pl' c',
    (Close now a;; Get (S fuel) now' (p c)) w = Done w' (Some a, None) ∧
    pools w' !! p c = Some pl' ∧ conns pl' = Some [] ∧
    val (size (pstats pl')) = val (size (pstats pl)) ∧
    fcalls pl' = fcalls pl ∧
    Request pl' = Request pl + 1 ∧ Success pl' = Success pl + 1 ∧
    heap w' !! a = Some c' ∧ lastUsed c' = now ∧ closed w' = closed w.
Proof.
  intros Hc Hr Hu Hpl Hrun Hq Hmax Hfresh.
  set (w1 := with_heap (alter (set_lastUsed now) a)
               (with_pools (alter (set_conns (Some ([] ++ [a]))) (p c)) w)).
  assert (Hclose : Close now a w = Done w1 None).
  { rewrite (Close_put now a c r w Hc Hr).
    by apply (put_room now (p c) a c pl [] w). }
  assert (Hpl1 : pools w1 !! p c = Some (set_conns (Some [a]) pl)).
  { unfold w1. cbn. by rewrite list_lookup_alter_eq, Hpl. }
  assert (Hc1 : heap w1 !! a = Some (set_lastUsed now c)).
  { unfold w1. cbn. by rewrite list_lookup_alter_eq, Hc. }
  eexists. exists (set_pstats (set_success inc) (set_pstats (set_request inc)
                     (set_conns (Some []) (set_conns (Some [a]) pl)))).
  exists (set_lastUsed now c). split.
  - unfold bind at 1. rewrite Hclose.
    rewrite (Get_running (S fuel) now' (p c) _ [a] w1 Hpl1 eq_refl Hrun).
    unfold bind at 1.
    rewrite (get_fresh fuel now' (p c) _ a [] (set_lastUsed now c) w1 Hpl1 eq_refl Hc1 Hfresh).
    reflexivity.
  - split; [cbn; by rewrite !list_lookup_alter_eq, Hpl|].
    repeat split.
    cbn. by rewrite list_lookup_alter_eq, Hc.
Qed.

Lemma Close_then_Get_reuses_witness :
  ∃ w', (Close t1 0%nat;; Get 1 t2 0%nat) w_got = Done w' (Some 0%nat, None).
Proof.
  destruct (Close_then_Get_reuses 0 t1 t2 0%nat _ _ _ w_got eq_refl eq_refl eq_refl eq_refl)
    as (w' & pl' & c' & Hrun & _); [discriminate|reflexivity|reflexivity| |by exists w'].
  right. discriminate.
Defined.

(** ** What the operations do to one pool *)

(** A property [Q] of pool [j] that the elementary pool updates keep is
    kept by every operation. [live] says whether operations aimed at pool
    [j] itself are considered: with [live] false the lemmas below speak of
    operations on other pools, and then any [Q] is kept. *)
Section pool_footprint.
Context (j : pool_id) (Q : pool → Prop) (live : Prop).
Hypothesis Q_fcalls : live → ∀ n pl, Q pl → Q (set_fcalls n pl).
Hypothesis Q_push :
  live → ∀ a q pl, Q pl → conns pl = Some q → Q (set_conns (Some (q ++ [a])) pl).
Hypothesis Q_pop :
  live → ∀ a q pl, Q pl → conns pl = Some (a :: q) → Q (set_conns (Some q) pl).
Hypothesis Q_size : live → ∀ f pl, Q pl → Q (set_pstats (set_size f) pl).
Hypothesis Q_request : live → ∀ pl, Q pl → Q (set_pstats (set_request inc) pl).
Hypothesis Q_success : live → ∀ pl, Q pl → Q (set_pstats (set_success inc) pl).
Hypothesis Q_stop :
  live → ∀ pl, Q pl → running pl = 1 →
  Q (set_conns None (set_pstats stats_reset (set_running 0 pl))).

Lemma pool_has_upd pid f w :
  pool_has j Q w →
  (pid = j → ∀ pl, pools w !! j = Some pl → Q pl → Q (f pl)) →
  pool_has j Q (with_pools (alter f pid) w).
Proof.
  intros (pl & Hpl & HQ) Hf. destruct (decide (pid = j)) as [->|Hne].
  - exists (f pl). split; [cbn; by rewrite list_lookup_alter_eq, Hpl|]. by apply Hf.
  - exists pl. split; [cbn; by rewrite list_lookup_alter_ne|exact HQ].
Qed.

Lemma pool_has_same w w' : pools w' = pools w → pool_has j Q w → pool_has j Q w'.
Proof. intros Heq (pl & Hpl & HQ). exists pl. by rewrite Heq. Qed.

Lemma addConnections_loop_pool n pid w :
  (pid = j → live) → pool_has j Q w →
  wp (addConnections_loop n pid) (λ _ w', pool_has j Q w') w.
Proof.
  intros Hlive. revert w. induction n as [|n IH]; intros w HP; simpl; [by rewrite wp_ret|].
  rewrite wp_bind. apply wp_the_pool. intros pl _.
  destruct (val (size (pstats pl)) >=? MaxSize (cfg pl)); [by rewrite wp_ret|].
  rewrite wp_bind, wp_upd_pool.
  assert (HP1 : pool_has j Q (with_pools (alter (set_fcalls (S (fcalls pl))) pid) w)).
  { apply pool_has_upd; [exact HP|]. intros Hj plj _ HQ. by apply Q_fcalls; [apply Hlive|]. }
  destruct (factory pl (fcalls pl)); [|by rewrite wp_ret].
  rewrite wp_bind, wp_newConn, wp_bind. unfold chan_send.
  rewrite wp_bind. apply wp_the_pool. intros pl' Hpl'.
  destruct (conns pl') as [q|] eqn:Hq; [|exact I].
  destruct (Z.of_nat (length q) <? MaxSize (cfg pl')); [|exact I].
  rewrite wp_upd_pool, wp_bind, wp_upd_pool. apply IH.
  apply pool_has_upd.
  - apply pool_has_upd; [exact HP1|]. intros -> plj Hplj HQ.
    rewrite Hplj in Hpl'. injection Hpl' as ->. by apply Q_push; [apply Hlive|..].
  - intros Hj plj _ HQ. by apply Q_size; [apply Hlive|].
Qed.

Lemma addConnections_pool n pid w :
  (pid = j → live) → pool_has j Q w →
  wp (addConnections n pid) (λ _ w', pool_has j Q w') w.
Proof.
  intros Hlive HP. unfold addConnections. rewrite wp_bind. apply wp_the_pool. intros _ _.
  by apply addConnections_loop_pool.
Qed.

Lemma get_pool fuel now pid w :
  (pid = j → live) → pool_has j Q w →
  wp (get fuel now pid) (λ _ w', pool_has j Q w') w.
Proof.
  intros Hlive. revert w. induction fuel as [|fuel IH]; intros w HP; [exact I|].
  simpl. rewrite wp_bind. apply wp_the_pool. intros pl Hpl.
  assert (Htry : wp (tryGet_with (get fuel now pid) pid) (λ _ w', pool_has j Q w') w).
  { unfold tryGet_with. rewrite wp_bind. apply wp_the_pool. intros pl' _.
    destruct (val (size (pstats pl')) <? MaxSize (cfg pl')); [|by rewrite wp_ret].
    rewrite wp_bind. eapply wp_mono; [|by apply addConnections_pool].
    intros [e|] w' HP'; cbn beta iota; [by rewrite wp_ret|by apply IH]. }
  destruct (conns pl) as [[|a q]|] eqn:Hq; try exact Htry.
  assert (HP1 : pool_has j Q (with_pools (alter (set_conns (Some q)) pid) w)).
  { apply pool_has_upd; [exact HP|]. intros -> plj Hplj HQ.
    rewrite Hplj in Hpl. injection Hpl as ->. by eapply Q_pop; [apply Hlive|..]. }
  rewrite wp_bind, wp_upd_pool, wp_bind. apply wp_the_conn. intros c _.
  destruct ((lastUsed c >? 0) && (lastUsed c <? now - IdleTimeout (cfg pl)));
    [|by rewrite wp_ret].
  destruct (Conn c) as [r|]; [|exact I].
  rewrite wp_bind, wp_upd_pool, wp_bind.
  eapply wp_mono; [|apply IH].
  - intros res w' HP'. rewrite wp_bind, wp_raw_close, wp_ret. exact HP'.
  - apply pool_has_upd; [exact HP1|]. intros Hj plj _ HQ. by apply Q_size; [apply Hlive|].
Qed.

Lemma updateStat_pool pid err w :
  (pid = j → live) → pool_has j Q w →
  wp (updateStat pid err) (λ _ w', pool_has j Q w') w.
Proof.
  intros Hlive HP. unfold updateStat. rewrite wp_bind, wp_upd_pool.
  assert (HP1 : pool_has j Q (with_pools (alter (set_pstats (set_request inc)) pid) w)).
  { apply pool_has_upd; [exact HP|]. intros Hj plj _ HQ. by apply Q_request; [apply Hlive|]. }
  destruct err; [by rewrite wp_ret|]. rewrite wp_upd_pool.
  apply pool_has_upd; [exact HP1|]. intros Hj plj _ HQ. by apply Q_success; [apply Hlive|].
Qed.

Lemma Get_pool fuel now pid w :
  (pid = j → live) → pool_has j Q w →
  wp (Get fuel now pid) (λ _ w', pool_has j Q w') w.
Proof.
  intros Hlive HP. unfold Get. rewrite wp_bind. apply wp_the_pool. intros pl _.
  rewrite wp_bind.
  assert (Hclosed : wp (ret (@None nat, Some ErrClosed))
            (λ res w', wp (updateStat pid res.2;; ret res) (λ _ w'', pool_has j Q w'') w') w).
  { rewrite wp_ret, wp_bind. eapply wp_mono; [|by apply updateStat_pool].
    intros u w' HP'. by rewrite wp_ret. }
  destruct (conns pl); [|exact Hclosed].
  destruct (running pl =? 0); [exact Hclosed|].
  eapply wp_mono; [|by apply get_pool].
  intros res w' HP'. rewrite wp_bind.
  eapply wp_mono; [|by apply updateStat_pool].
  intros u w'' HP''. by rewrite wp_ret.
Qed.

Lemma MarkUnusable_pool pid c w :
  (pid = j → live) → pool_has j Q w →
  wp (MarkUnusable pid c) (λ _ w', pool_has j Q w') w.
Proof.
  intros Hlive HP. destruct c as [|a|r]; [exact HP| |exact HP].
  unfold MarkUnusable, markUnusable.
  rewrite !wp_bind. apply wp_the_conn. intros c _.
  rewrite wp_upd_conn, wp_bind. apply wp_the_pool. intros pl _.
  rewrite wp_upd_pool. apply pool_has_upd; [exact HP|].
  intros Hj plj _ HQ. by apply Q_size; [apply Hlive|].
Qed.

Lemma Stop_pool pid w :
  (pid = j → live) → pool_has j Q w →
  wp (Stop pid) (λ _ w', pool_has j Q w') w.
Proof.
  intros Hlive HP. unfold Stop. rewrite wp_bind. apply wp_the_pool. intros pl Hpl.
  destruct (Z.eqb_spec (running pl) 1) as [Hrun|_]; [|by rewrite wp_ret].
  rewrite wp_bind, wp_upd_pool, wp_bind, wp_upd_pool.
  destruct (conns pl) as [q|]; [|exact I].
  rewrite wp_bind. eapply wp_mono; [|apply drain_frame].
  intros msgs w' [Hp _]. rewrite wp_bind, wp_upd_pool.
  assert (pool_has j Q (with_pools (alter (set_conns None) pid) w')) as Hres.
  { destruct HP as (plj & Hplj & HQ). destruct (decide (pid = j)) as [->|Hne].
    - rewrite Hplj in Hpl. injection Hpl as ->.
      exists (set_conns None (set_pstats stats_reset (set_running 0 pl))).
      split; [|by apply Q_stop; [apply Hlive|..]].
      cbn. rewrite Hp. cbn. by rewrite !list_lookup_alter_eq, Hplj.
    - exists plj. split; [|exact HQ].
      cbn. rewrite Hp. cbn. by rewrite !list_lookup_alter_ne. }
  by destruct (0 <? length msgs)%nat; rewrite wp_ret.
Qed.

Lemma Close_pool now a w :
  (∀ c, heap w !! a = Some c → p c = j → live) → pool_has j Q w →
  wp (Close now a) (λ _ w', pool_has j Q w') w.
Proof.
  intros Hlive HP. unfold Close. rewrite wp_bind. apply wp_the_conn. intros c Hc.
  specialize (Hlive c Hc).
  destruct (Conn c) as [r|] eqn:Hr; [|by rewrite wp_ret].
  unfold put. rewrite wp_bind. apply wp_the_pool. intros pl Hpl.
  rewrite wp_bind. apply wp_the_conn. intros c' _.
  unfold isUnUsable. rewrite !wp_bind. apply wp_the_conn. intros c'' _. rewrite wp_ret.
  assert (Hclose : ∀ w1, pool_has j Q w1 →
            wp (Conn_Close c') (λ _ w', pool_has j Q w') w1).
  { intros w1 HP1. unfold Conn_Close. destruct (Conn c'); [|exact I].
    by rewrite wp_raw_close. }
  assert (Hfull : wp (upd_pool (p c) (set_pstats (set_size dec));; Conn_Close c')
                     (λ _ w', pool_has j Q w') w).
  { rewrite wp_bind, wp_upd_pool. apply Hclose. apply pool_has_upd; [exact HP|].
    intros Hj plj _ HQ. by apply Q_size; [apply Hlive|]. }
  destruct (unUsable c''); [by apply Hclose|].
  destruct (conns pl) as [q|] eqn:Hq; [|exact Hfull].
  destruct (Z.of_nat (length q) <? MaxSize (cfg pl)); [|exact Hfull].
  rewrite wp_bind, wp_upd_pool, wp_bind, wp_upd_conn, wp_ret.
  apply (pool_has_same (with_pools (alter (set_conns (Some (q ++ [a]))) (p c)) w));
    [reflexivity|].
  apply pool_has_upd; [exact HP|]. intros Hj plj Hplj HQ.
  rewrite Hj, Hplj in Hpl. injection Hpl as ->. by apply Q_push; [apply Hlive|..].
Qed.

Lemma New_pool c f options w :
  pool_has j Q w → wp (New c f options) (λ _ w', pool_has j Q w') w.
Proof.
  intros HP. unfold New. destruct f as [f|]; [|by rewrite wp_ret].
  destruct (validate c); [by rewrite wp_ret|].
  assert (Hne : length (pools w) ≠ j).
  { destruct HP as (pl & Hpl & _). apply lookup_lt_Some in Hpl. lia. }
  assert (Hdead : length (pools w) = j → live) by (intros H; by destruct Hne).
  assert (Hupd : ∀ g w1, pool_has j Q w1 →
            pool_has j Q (with_pools (alter g (length (pools w))) w1)).
  { intros g w1 HP1. apply pool_has_upd; [exact HP1|]. intros H. by destruct Hne. }
  rewrite wp_bind. unfold wp at 1, alloc_pool. rewrite wp_bind.
  assert (Hopts : ∀ w1, pool_has j Q w1 →
            wp (apply_options options (length (pools w))) (λ _ w', pool_has j Q w') w1).
  { induction options as [|[nm] options IH]; intros w1 HP1; simpl; [by rewrite wp_ret|].
    rewrite !wp_bind, wp_upd_pool, wp_ret. auto. }
  eapply wp_mono; [|apply Hopts].
  - intros [e|] w1 HP1; [by rewrite wp_ret|].
    rewrite wp_bind. apply wp_the_pool. intros pl _. rewrite wp_bind.
    assert (Hstart : ∀ w2, pool_has j Q w2 →
              wp (do err <- start (length (pools w));
                  match err with
                  | Some _ => ret (Some (length (pools w)), @None error)
                  | None => ret (Some (length (pools w)), @None error)
                  end) (λ _ w', pool_has j Q w') w2).
    { intros w2 HP2. rewrite wp_bind. unfold start. rewrite wp_bind.
      apply wp_the_pool. intros pl' _.
      destruct (running pl' =? 0).
      - rewrite wp_bind, wp_upd_pool.
        eapply wp_mono; [|apply addConnections_pool; auto].
        intros [e|] w3 HP3; by rewrite wp_ret.
      - by rewrite !wp_ret. }
    destruct (String.eqb (name pl) "").
    + rewrite wp_bind. unfold wp at 1, connPoolCounter_inc. rewrite wp_upd_pool.
      apply Hstart. apply Hupd. exact HP1.
    + rewrite wp_ret. by apply Hstart.
  - destruct HP as (pl & Hpl & HQ). exists pl. split; [|exact HQ].
    cbn. by apply lookup_app_l_Some.
Qed.

Lemma exec_pool c w :
  live → pool_has j Q w → wp (exec c) (λ _ w', pool_has j Q w') w.
Proof.
  intros Hl HP. destruct c as [c f o|fuel now pid|now a|pid c|pid]; cbn [exec].
  - rewrite wp_bind. eapply wp_mono; [|by apply New_pool]. intros. by rewrite wp_ret.
  - rewrite wp_bind. eapply wp_mono; [|by apply Get_pool]. intros. by rewrite wp_ret.
  - rewrite wp_bind. eapply wp_mono; [|by apply Close_pool]. intros. by rewrite wp_ret.
  - by apply MarkUnusable_pool.
  - rewrite wp_bind. eapply wp_mono; [|by apply Stop_pool]. intros. by rewrite wp_ret.
Qed.

End pool_footprint.

Lemma steps_pool_has j Q w w' :
  (∀ c w1 w2, pool_has j Q w1 → exec c w1 = Done w2 tt → pool_has j Q w2) →
  steps w w' → pool_has j Q w → pool_has j Q w'.
Proof.
  intros Hstep Hsteps. induction Hsteps as [w|w c w1 w2 Hex _ IH]; [done|].
  intros HP. apply IH. by eapply Hstep.
Qed.

(** X5. [Stop] is final. Once a running pool has been stopped, it stays
    stopped whatever public calls follow, on it or on other pools: there is no
    way back to running, every later [Get] returns [ErrClosed], and every
    later [Stop] returns nil and changes nothing. *)
Theorem Stop_is_final pid pl e w w1 w' :
  pools w !! pid = Some pl → running pl = 1 → Stop pid w = Done w1 e →
  steps w1 w' →
  pool_has pid stopped w' ∧
  (∀ fuel now, ∃ w'', Get fuel now pid w' = Done w'' (None, Some ErrClosed)) ∧
  Stop pid w' = Done w' None.
Proof.
  intros Hpl Hrun Hstop Hsteps.
  assert (H1 : pool_has pid stopped w1).
  { destruct (wp_Done _ _ _ _ _ (Stop_running pid pl w Hpl Hrun) Hstop)
      as (pl1 & Hpl1 & Hr1 & Hc1 & _).
    exists pl1. by repeat split. }
  assert (H' : pool_has pid stopped w').
  { revert Hsteps H1. apply steps_pool_has. intros c wa wb HP Hex.
    refine (wp_Done _ _ _ _ _ (exec_pool pid stopped True _ _ _ _ _ _ _ c wa I HP) Hex);
      clear; intros _.
    - by intros n pl [? ?].
    - intros a q pl [_ Hn] Hq. congruence.
    - intros a q pl [_ Hn] Hq. congruence.
    - by intros f pl [? ?].
    - by intros pl [? ?].
    - by intros pl [? ?].
    - intros pl [Hr _] Hr1. congruence. }
  split; [exact H'|]. destruct H' as (pl' & Hpl' & Hr' & Hc').
  split; [|by eapply Stop_stopped].
  intros fuel now. eexists. by eapply Get_stopped.
Qed.

Lemma Stop_is_final_witness :
  pool_has 0%nat stopped w_closed_late ∧
  (∀ fuel now, ∃ w'', Get fuel now 0%nat w_closed_late = Done w'' (None, Some ErrClosed)) ∧
  Stop 0%nat w_closed_late = Done w_closed_late None.
Proof.
  apply (Stop_is_final 0%nat _ None w_got w_stopped w_closed_late eq_refl eq_refl eq_refl).
  apply (steps_step w_stopped (CallClose t1 0%nat) w_closed_late); [reflexivity|].
  apply steps_refl.
Defined.

(** X6. The configuration, the factory and the name of a pool are fixed
    once [New] has returned: no later public call, on this pool or another,
    changes them, and the pool is never deallocated. *)
Theorem pool_identity_fixed pid pl w w' :
  steps w w' → pools w !! pid = Some pl →
  ∃ pl', pools w' !! pid = Some pl' ∧
         cfg pl' = cfg pl ∧ factory pl' = factory pl ∧ Name pl' = Name pl.
Proof.
  intros Hsteps Hpl.
  assert (H0 : pool_has pid (λ x, cfg x = cfg pl ∧ factory x = factory pl ∧ Name x = Name pl) w)
    by (by exists pl).
  revert Hsteps H0. apply steps_pool_has. intros c wa wb HP Hex.
  refine (wp_Done _ _ _ _ _
            (exec_pool pid (λ x, cfg x = cfg pl ∧ factory x = factory pl ∧ Name x = Name pl)
               True _ _ _ _ _ _ _ c wa I HP) Hex);
    clear; intros _; intros; assumption.
Qed.

Lemma pool_identity_fixed_witness :
  ∃ pl', pools w_closed_late !! 0%nat = Some pl' ∧
         cfg pl' = cfg_test ∧ factory pl' = dial_ok ∧ Name pl' = "conn-pool-1".
Proof.
  assert (Hs : steps w_new w_closed_late).
  { apply (steps_step w_new (CallGet 2 t0 0%nat) w_got); [reflexivity|].
    apply (steps_step w_got (CallStop 0%nat) w_stopped); [reflexivity|].
    apply (steps_step w_stopped (CallClose t1 0%nat) w_closed_late); [reflexivity|].
    apply steps_refl. }
  destruct (pool_identity_fixed 0%nat _ w_new w_closed_late Hs eq_refl)
    as (pl' & H1 & H2 & H3 & H4).
  exists pl'. repeat split; assumption.
Defined.



(** ** What a Get costs *)

Lemma get_active now pid :
  ∀ fuel w pl q w' r e,
    Inv false w → pools w !! pid = Some pl → conns pl = Some q →
    get fuel now pid w = Done w' (r, e) →
    ∃ pl', pools w' !! pid = Some pl' ∧
           Active pl' = Active pl + (if r is Some _ then 1 else 0) ∧
           (is_Some r ↔ e = None).
Proof.
  induction fuel as [|fuel IH]; intros w pl q w' r e HI Hpl Hq Hget; [discriminate|].
  destruct (Inv_pool false pid pl w HI Hpl) as [Hok Hch].
  destruct q as [|a q].
  - rewrite (get_empty fuel now pid pl w Hpl Hq) in Hget.
    destruct (Z.lt_ge_cases (val (size (pstats pl))) (MaxSize (cfg pl))) as [Hlt|Hge].
    + rewrite (tryGet_grows fuel now pid pl w Hpl Hlt) in Hget.
      destruct (addConnections_spec
                  (Z.min (Increment (cfg pl)) (MaxSize (cfg pl) - val (size (pstats pl))))
                  pid pl w Hok Hpl Hq ltac:(lia)) as
        (w1 & e1 & cs & pl1 & Hadd & _ & _ & Hpl1 & _ & _ & Hconns & Hsize & _).
      assert (Hact : Active pl1 = Active pl).
      { unfold Active, available. rewrite Hconns, Hq, Hsize, length_seq. cbn. lia. }
      unfold bind in Hget. rewrite Hadd in Hget. destruct e1 as [x|].
      * injection Hget as <- <- <-. exists pl1. split; [exact Hpl1|].
        split; [lia|]. split; [by intros [? ?]|discriminate].
      * assert (HI1 : Inv false w1).
        { exact (wp_Done _ _ _ _ _ (addConnections_Inv false _ pid w HI) Hadd). }
        destruct (IH w1 pl1 _ w' r e HI1 Hpl1 Hconns Hget) as (pl' & Hpl' & Hact' & Hshape).
        exists pl'. repeat split; try tauto. lia.
    + rewrite (tryGet_exhausted fuel now pid pl w Hpl Hge) in Hget.
      injection Hget as <- <- <-. exists pl. split; [exact Hpl|].
      split; [lia|]. split; [by intros [? ?]|discriminate].
  - destruct (Hch _ Hq a ltac:(apply list_elem_of_here)) as (c & Hc & _).
    destruct (Inv_conn false a c w HI Hc) as [Hnonneg Hset].
    assert (Hfresh : lastUsed c ≤ 0 ∨ now - IdleTimeout (cfg pl) ≤ lastUsed c →
              ∃ pl', pools w' !! pid = Some pl' ∧
                     Active pl' = Active pl + (if r is Some _ then 1 else 0) ∧ (is_Some r ↔ e = None)).
    { intros Hf. rewrite (get_fresh fuel now pid pl a q c w Hpl Hq Hc Hf) in Hget.
      injection Hget as <- <- <-. exists (set_conns (Some q) pl).
      split; [cbn; by rewrite list_lookup_alter_eq, Hpl|]. split.
      - unfold Active, available. rewrite Hq. cbn [conns set_conns pstats length]. lia.
      - split; [done|eauto]. }
    destruct (Z.le_gt_cases (lastUsed c) 0) as [Hz|Hpos]; [by apply Hfresh; left|].
    destruct (Z.lt_ge_cases (lastUsed c) (now - IdleTimeout (cfg pl))) as [Hold|Hnew];
      [|by apply Hfresh; right].
    destruct (Hset ltac:(lia)) as [r0 Hr0].
    rewrite (get_expired fuel now pid pl a q c r0 w Hpl Hq Hc Hr0 Hpos Hold) in Hget.
    match type of Hget with bind _ _ ?w0 = _ => set (w2 := w0) in * end.
    unfold bind in Hget.
    destruct (get fuel now pid w2) as [w3 [r3 e3]| | |] eqn:Hrec; try discriminate.
    unfold raw_close, bind, modify, ret in Hget. injection Hget as <- <- <-.
    destruct (IH w2 (set_pstats (set_size dec) (set_conns (Some q) pl)) q w3 r3 e3)
      as (pl' & Hpl' & Hact' & Hshape); try done.
    + unfold w2. apply Inv_size_dec. by eapply Inv_pop.
    + unfold w2. cbn. by rewrite !list_lookup_alter_eq, Hpl.
    + exists pl'. split; [exact Hpl'|]. split; [|exact Hshape].
      rewrite Hact'. unfold Active, available. rewrite Hq.
      cbn [conns set_conns set_pstats pstats size set_size length]. unfold_counters. lia.
Qed.

Lemma get_counts now pid rq sc fuel w :
  pool_has pid (λ x, request (pstats x) = rq ∧ success (pstats x) = sc) w →
  wp (get fuel now pid)
     (λ _ w', pool_has pid (λ x, request (pstats x) = rq ∧ success (pstats x) = sc) w') w.
Proof.
  intros HP.
  eapply (get_pool pid (λ x, request (pstats x) = rq ∧ success (pstats x) = sc) True);
    try (intros _; intros; assumption); [done|exact HP].
Qed.

(** X8. What one [Get] does to the statistics of its pool, in every
    reachable world and whatever path it takes (reuse, idle expiry, growth,
    exhaustion, a failing factory, a stopped pool): [Request] grows by
    exactly one; [Success] grows by one when a connection is returned and
    not at all otherwise; [Active] grows by one when a connection is
    returned and is unchanged otherwise. A connection is returned exactly
    when the error is nil. *)
Theorem Get_accounting fuel now pid pl w w' r e :
  reachable w → pools w !! pid = Some pl →
  Get fuel now pid w = Done w' (r, e) →
  ∃ pl', pools w' !! pid = Some pl' ∧
         Request pl' = Request pl + 1 ∧
         Success pl' = Success pl + (if r is Some _ then 1 else 0) ∧
         Active pl' = Active pl + (if r is Some _ then 1 else 0) ∧
         (is_Some r ↔ e = None).
Proof.
  intros Hreach Hpl HGet.
  pose proof (reachable_by_Inv false w Hreach) as HI.
  assert (Hclosed : Get fuel now pid w
                    = Done (with_pools (alter (set_pstats (set_request inc)) pid) w)
                           (None, Some ErrClosed) →
            ∃ pl', pools w' !! pid = Some pl' ∧ Request pl' = Request pl + 1 ∧
                   Success pl' = Success pl + (if r is Some _ then 1 else 0) ∧
                   Active pl' = Active pl + (if r is Some _ then 1 else 0) ∧ (is_Some r ↔ e = None)).
  { intros Heq. rewrite Heq in HGet. injection HGet as <- <- <-.
    exists (set_pstats (set_request inc) pl).
    split; [cbn; by rewrite list_lookup_alter_eq, Hpl|].
    unfold Request, Success, Active, available. cbn. unfold_counters.
    repeat split; try lia; [by intros [? ?]|discriminate]. }
  destruct (conns pl) as [q|] eqn:Hq; last first.
  { apply Hclosed. unfold Get, bind, the_pool. by rewrite Hpl, Hq. }
  destruct (Z.eq_dec (running pl) 0) as [Hstop|Hrun];
    [apply Hclosed; by eapply Get_stopped|].
  clear Hclosed. rewrite (Get_running fuel now pid pl q w Hpl Hq Hrun) in HGet.
  unfold bind at 1 in HGet.
  destruct (get fuel now pid w) as [w1 [r1 e1]| | |] eqn:Hget; try discriminate.
  destruct (get_active now pid fuel w pl q w1 r1 e1 HI Hpl Hq Hget)
    as (pl1 & Hpl1 & Hact & Hshape).
  assert (Hcnt : pool_has pid (λ x, request (pstats x) = request (pstats pl)
                                    ∧ success (pstats x) = success (pstats pl)) w1).
  { refine (wp_Done _ _ _ _ _ (get_counts now pid _ _ fuel w _) Hget). by exists pl. }
  destruct Hcnt as (pl1' & Hpl1' & Hrq & Hsc).
  rewrite Hpl1 in Hpl1'. injection Hpl1' as <-.
  unfold updateStat, bind, upd_pool, modify, ret in HGet. cbn [snd] in HGet.
  destruct e1 as [x|].
  - injection HGet as <- <- <-.
    assert (r1 = None) as -> by (destruct r1; [destruct Hshape as [Hs _]|done];
                                  by specialize (Hs ltac:(eauto))).
    exists (set_pstats (set_request inc) pl1).
    split; [cbn; by rewrite list_lookup_alter_eq, Hpl1|].
    unfold Request, Success, Active, available in *. cbn. unfold_counters.
    rewrite Hrq, Hsc. repeat split; try lia; [by intros [? ?]|discriminate].
  - injection HGet as <- <- <-.
    destruct r1 as [a|]; [|destruct Hshape as [_ Hs]; by destruct (Hs eq_refl)].
    exists (set_pstats (set_success inc) (set_pstats (set_request inc) pl1)).
    split; [cbn; by rewrite !list_lookup_alter_eq, Hpl1|].
    unfold Request, Success, Active, available in *. cbn. unfold_counters.
    rewrite Hrq, Hsc. repeat split; try lia; eauto.
Qed.

Lemma Get_accounting_witness :
  ∃ pl', pools w_got !! 0%nat = Some pl' ∧
         Request pl' = 0 + 1 ∧ Success pl' = 0 + 1 ∧ Active pl' = 0 + 1 ∧
         (is_Some (Some 0%nat) ↔ @None error = None).
Proof.
  exact (Get_accounting 2 t0 0%nat _ w_new w_got (Some 0%nat) None
           reachable_w_new eq_refl eq_refl).
Defined.

(** ** Growth, call by call *)

(** The loop of [addConnections] followed through the factory's answers:
    the first [length cs] calls dial the connections [cs]; then the loop ends
    ([stop] is [None]: the count asked for or [MaxSize] is reached) or the
    next call fails with [e] ([stop] is [Some e]). *)
Lemma addConnections_loop_exact pid :
  ∀ cs n w pl q stop,
    pools w !! pid = Some pl → conns pl = Some q →
    Z.of_nat (length q) + Z.of_nat (length cs) ≤ MaxSize (cfg pl) →
    val (size (pstats pl)) + Z.of_nat (length cs) ≤ MaxSize (cfg pl) →
    (∀ i c, cs !! i = Some c → factory pl (fcalls pl + i)%nat = Dialed c) →
    match stop with
    | None => (length cs ≤ n)%nat ∧
              (length cs = n ∨ MaxSize (cfg pl) ≤ val (size (pstats pl)) + Z.of_nat (length cs))
    | Some e => (length cs < n)%nat ∧
                val (size (pstats pl)) + Z.of_nat (length cs) < MaxSize (cfg pl) ∧
                factory pl (fcalls pl + length cs)%nat = DialFailed e
    end →
    ∃ w' pl',
      addConnections_loop n pid w = Done w' (ErrExternal <$> stop) ∧
      heap w' = heap w ++ map (fresh_conn pid) cs ∧
      pools w' !! pid = Some pl' ∧
      cfg pl' = cfg pl ∧ factory pl' = factory pl ∧
      conns pl' = Some (q ++ seq (length (heap w)) (length cs)) ∧
      val (size (pstats pl')) = val (size (pstats pl)) + Z.of_nat (length cs) ∧
      fcalls pl' = (fcalls pl + length cs + (if stop is Some _ then 1 else 0))%nat.
Proof.
  induction cs as [|c cs IH]; intros n w pl q stop Hpl Hq Hcap Hsz Hdial Hstop.
  - cbn [length] in *. destruct stop as [e|].
    + destruct Hstop as (Hn & Hlt & Hfail). destruct n as [|n]; [lia|].
      rewrite (addConnections_loop_S n pid pl w Hpl).
      destruct (Z.geb_spec (val (size (pstats pl))) (MaxSize (cfg pl))); [lia|].
      rewrite Nat.add_0_r in Hfail. rewrite Hfail.
      eexists. exists (set_fcalls (S (fcalls pl)) pl). split; [reflexivity|].
      cbn. rewrite !app_nil_r, list_lookup_alter_eq, Hpl.
      repeat split; try done; lia.
    + exists w, pl. destruct Hstop as (_ & Hend). split.
      { destruct n as [|n]; [reflexivity|].
        rewrite (addConnections_loop_S n pid pl w Hpl).
        destruct (Z.geb_spec (val (size (pstats pl))) (MaxSize (cfg pl))); [reflexivity|].
        destruct Hend; [discriminate|lia]. }
      cbn. rewrite !app_nil_r. repeat split; try done; lia.
  - cbn [length] in *.
    assert (Hnpos : ∃ n', n = S n').
    { destruct n as [|n']; [|by eauto]. destruct stop; lia. }
    destruct Hnpos as [n' ->].
    rewrite (addConnections_loop_S n' pid pl w Hpl).
    destruct (Z.geb_spec (val (size (pstats pl))) (MaxSize (cfg pl))); [lia|].
    pose proof (Hdial 0%nat c eq_refl) as Hc0. rewrite Nat.add_0_r in Hc0. rewrite Hc0, Hq.
    destruct (Z.ltb_spec (Z.of_nat (length q)) (MaxSize (cfg pl))); [|lia].
    match goal with |- context [addConnections_loop n' pid ?w0] => set (w1 := w0) end.
    set (pl1 := set_pstats (set_size inc)
                  (set_conns (Some (q ++ [length (heap w)]))
                     (set_fcalls (S (fcalls pl)) pl))).
    assert (Hpl1 : pools w1 !! pid = Some pl1).
    { unfold w1. cbn. rewrite !list_lookup_alter_eq, Hpl. reflexivity. }
    destruct (IH n' w1 pl1 (q ++ [length (heap w)]) stop Hpl1 eq_refl) as
      (w' & pl' & Hrun & Hheap & Hpl' & Hcfg & Hfac & Hconns & Hsize & Hfc).
    { cbn. rewrite length_app. cbn. lia. }
    { cbn. unfold_counters. lia. }
    { intros i x Hx. cbn. rewrite <- Nat.add_succ_r. by apply Hdial. }
    { cbn. unfold_counters. destruct stop as [e|].
      - destruct Hstop as (? & ? & Hfail). repeat split; try lia.
        by rewrite <- Nat.add_succ_r.
      - destruct Hstop as (? & ?). split; lia. }
    exists w', pl'. split; [exact Hrun|]. split.
    { rewrite Hheap. unfold w1. cbn. by rewrite <- app_assoc. }
    split; [exact Hpl'|]. split; [by rewrite Hcfg|]. split; [by rewrite Hfac|]. split.
    { rewrite Hconns. unfold w1. cbn. rewrite length_app. cbn.
      rewrite <- app_assoc. cbn. by rewrite Nat.add_1_r. }
    split; [rewrite Hsize; cbn; unfold_counters; lia|].
    rewrite Hfc. cbn. lia.
Qed.

(** X9. Growth on an empty buffer, followed through the factory's answers.
    Let [n] be [min Increment (MaxSize - size)], at least one. If the next [n]
    factory calls succeed, [Get] returns the first wrapper created and leaves
    the other [n - 1] idle. If some call fails after [k < n] successes,
    [Get] returns the factory's error, although [k] connections were made:
    they stay idle in the buffer and are counted in the size counter. In both
    cases the factory has been called once per answer consumed. *)
Theorem Get_growth_outcome fuel now pid pl cs stop w :
  reachable w → pools w !! pid = Some pl → running pl ≠ 0 → conns pl = Some [] →
  val (size (pstats pl)) < MaxSize (cfg pl) →
  (∀ i c, cs !! i = Some c → factory pl (fcalls pl + i)%nat = Dialed c) →
  match stop with
  | None => 0 < Z.of_nat (length cs) ∧
            Z.of_nat (length cs)
            = Z.min (Increment (cfg pl)) (MaxSize (cfg pl) - val (size (pstats pl)))
  | Some e => Z.of_nat (length cs)
              < Z.min (Increment (cfg pl)) (MaxSize (cfg pl) - val (size (pstats pl))) ∧
              factory pl (fcalls pl + length cs)%nat = DialFailed e
  end →
  ∃ w' pl',
    Get (S (S fuel)) now pid w
    = Done w' (match stop with
               | None => (Some (length (heap w)), None)
               | Some e => (None, Some (ErrExternal e))
               end) ∧
    pools w' !! pid = Some pl' ∧
    heap w' = heap w ++ map (fresh_conn pid) cs ∧
    val (size (pstats pl')) = val (size (pstats pl)) + Z.of_nat (length cs) ∧
    Available pl' = Z.of_nat (length cs) - (if stop is Some _ then 0 else 1) ∧
    fcalls pl' = (fcalls pl + length cs + (if stop is Some _ then 1 else 0))%nat.
Proof.
  intros Hreach Hpl Hrun Hq Hlt Hdial Hstop.
  destruct (Inv_pool false pid pl w (reachable_by_Inv false w Hreach) Hpl)
    as [(Hv & Hsz & _ & _) _].
  destruct (validate_None _ Hv) as (Hmin & Hmax & Hmm & Hinc).
  set (n := Z.min (Increment (cfg pl)) (MaxSize (cfg pl) - val (size (pstats pl)))) in *.
  destruct (addConnections_loop_exact pid cs (Z.to_nat n) w pl [] stop Hpl Hq) as
    (w1 & pl1 & Hrun1 & Hheap & Hpl1 & Hcfg & Hfac & Hconns & Hsize & Hfc).
  { cbn. destruct stop; lia. }
  { destruct stop; lia. }
  { exact Hdial. }
  { destruct stop as [e|]; [destruct Hstop; repeat split; try lia; done|].
    destruct Hstop. split; [lia|]. left. lia. }
  assert (Hadd : addConnections n pid w = Done w1 (ErrExternal <$> stop)).
  { unfold addConnections, bind, the_pool. by rewrite Hpl. }
  rewrite (Get_running (S (S fuel)) now pid pl _ w Hpl Hq Hrun).
  unfold bind at 1. rewrite (get_empty (S fuel) now pid pl w Hpl Hq).
  rewrite (tryGet_grows (S fuel) now pid pl w Hpl Hlt). fold n.
  unfold bind at 1. rewrite Hadd. cbn in Hconns.
  destruct stop as [e|]; cbn [fmap option_fmap option_map].
  - eexists. exists (set_pstats (set_request inc) pl1). split; [reflexivity|].
    split; [cbn; by rewrite list_lookup_alter_eq, Hpl1|].
    split; [exact Hheap|]. split; [exact Hsize|]. split; [|exact Hfc].
    unfold Available, available. cbn. rewrite Hconns, length_seq. lia.
  - destruct Hstop as [Hpos _]. destruct cs as [|c cs]; [cbn in Hpos; lia|].
    cbn in Hconns.
    rewrite (get_fresh fuel now pid pl1 _ _ (fresh_conn pid c) w1 Hpl1 Hconns);
      [| |left; cbn; lia].
    2:{ rewrite Hheap. cbn. apply list_lookup_middle. reflexivity. }
    eexists. eexists. split; [reflexivity|].
    split; [cbn; by rewrite !list_lookup_alter_eq, Hpl1|].
    split; [exact Hheap|]. split; [exact Hsize|]. split; [|exact Hfc].
    unfold Available, available. cbn. rewrite length_seq. lia.
Qed.

Lemma Get_growth_outcome_witness :
  ∃ w' pl',
    Get 2 t1 0%nat w_got = Done w' (Some 1%nat, None) ∧
    pools w' !! 0%nat = Some pl' ∧
    heap w' = heap w_got ++ [fresh_conn 0%nat (Some {| rid := 1; close_err := None |})] ∧
    val (size (pstats pl')) = 1 + 1 ∧ Available pl' = 1 - 1 ∧ fcalls pl' = 2%nat.
Proof.
  refine (Get_growth_outcome 0 t1 0%nat _ [Some {| rid := 1; close_err := None |}] None w_got
            reachable_w_got eq_refl _ eq_refl eq_refl _ _).
  - discriminate.
  - intros [|i] c Hc; [by injection Hc as <-|discriminate].
  - split; reflexivity.
Defined.

(** ** New, step by step *)

Lemma alter_last {A} (g : A → A) (l : list A) (x : A) :
  alter g (length l) (l ++ [x]) = l ++ [g x].
Proof.
  rewrite (alter_app_r_alt g l [x] (length l)) by lia. by rewrite Nat.sub_diag.
Qed.

Lemma apply_options_run options h l cl ctr :
  ∀ pl0,
    apply_options options (length l) (World h (l ++ [pl0]) cl ctr)
    = Done (World h (l ++ [set_name (options_name options (name pl0)) pl0]) cl ctr) None.
Proof.
  induction options as [|[nm] options IH]; intros pl0.
  - cbn. by destruct pl0.
  - cbn [apply_options run_option]. unfold bind, upd_pool, modify, ret, with_pools.
    cbn [heap pools closed connPoolCounter]. rewrite alter_last.
    rewrite (IH (set_name nm pl0)). reflexivity.
Qed.

Lemma New_unfold c f options h l cl ctr :
  validate c = None →
  New c (Some f) options (World h l cl ctr)
  = (do err <- start (length l);
     match err with
     | Some _ => ret (Some (length l), None)
     | None => ret (Some (length l), None)
     end)
      (World h (l ++ [set_name (New_name options ctr) (p_init c f)]) cl
         (New_counter options ctr)).
Proof.
  intros Hv. unfold New. rewrite Hv. unfold bind at 1, alloc_pool, with_pools.
  cbn [heap pools closed connPoolCounter]. fold (p_init c f).
  unfold bind at 1. rewrite apply_options_run. cbn [name p_init].
  unfold bind at 1, the_pool. cbn [pools].
  rewrite (list_lookup_middle l [] _ (length l) eq_refl).
  unfold New_name, New_counter. cbn [name set_name].
  destruct (String.eqb (options_name options "") "") eqn:Hn.
  - unfold bind at 1. unfold bind at 1, connPoolCounter_inc, upd_pool, modify, with_counter,
      with_pools. cbn [heap pools closed connPoolCounter]. rewrite alter_last.
    reflexivity.
  - unfold bind at 1, ret. reflexivity.
Qed.

Lemma start_fresh c f nm h l cl ctr :
  start (length l) (World h (l ++ [set_name nm (p_init c f)]) cl ctr)
  = addConnections (MinSize c) (length l)
      (World h (l ++ [set_running 1 (set_name nm (p_init c f))]) cl ctr).
Proof.
  unfold start. unfold bind at 1, the_pool. cbn [pools].
  rewrite (list_lookup_middle l [] _ (length l) eq_refl). cbn [running set_name p_init Z.eqb].
  unfold bind at 1, upd_pool, modify, with_pools. cbn [heap pools closed connPoolCounter].
  rewrite alter_last. reflexivity.
Qed.


Lemma addConnections_fresh c f nm h l cl ctr :
  addConnections (MinSize c) (length l)
    (World h (l ++ [set_running 1 (set_name nm (p_init c f))]) cl ctr)
  = addConnections_loop (Z.to_nat (MinSize c)) (length l)
      (World h (l ++ [set_running 1 (set_name nm (p_init c f))]) cl ctr).
Proof.
  unfold addConnections, bind, the_pool. cbn [pools].
  by rewrite (list_lookup_middle l [] _ (length l) eq_refl).
Qed.


Lemma addConnections_loop_rest n pid pl w w' e :
  pools w !! pid = Some pl → addConnections_loop n pid w = Done w' e →
  ∃ pl', pools w' !! pid = Some pl' ∧ name pl' = name pl ∧ running pl' = running pl ∧
         request (pstats pl') = request (pstats pl) ∧
         success (pstats pl') = success (pstats pl).
Proof.
  intros Hpl Hrun.
  refine (wp_Done _ _ _ _ _
            (addConnections_loop_pool pid
               (λ x, name x = name pl ∧ running x = running pl ∧
                     request (pstats x) = request (pstats pl) ∧
                     success (pstats x) = success (pstats pl)) True _ _ _ n pid w _ _) Hrun);
    try (intros _; intros; assumption); [done|by exists pl].
Qed.

Lemma addConnections_loop_world n pid w w' e :
  addConnections_loop n pid w = Done w' e →
  closed w' = closed w ∧ connPoolCounter w' = connPoolCounter w.
Proof.
  intros Hrun.
  refine (wp_Done _ _ _ _ _
            (addConnections_loop_keeps
               (λ x, closed x = closed w ∧ connPoolCounter x = connPoolCounter w)
               _ _ n pid w _) Hrun);
    try (intros; assumption). done.
Qed.



Lemma default_name_inj n m : default_name n = default_name m → n = m.
Proof.
  unfold default_name, defaultNamePrefix. intros H.
  cbn [String.append] in H. injection H as H.
  change ("" +:+ ?x) with x in H. apply DecimalZ.to_int_inj.
  assert (Hok : ∀ z, Z.to_int z ≠ Decimal.Pos Decimal.Nil ∧ Z.to_int z ≠ Decimal.Neg Decimal.Nil).
  { intros [|q|q]; cbn; split; try discriminate;
      intros E; injection E as E; by apply DecimalPos.Unsigned.to_uint_nonnil in E. }
  destruct (Hok n) as [Hn1 Hn2], (Hok m) as [Hm1 Hm2].
  pose proof (NilZero.isi _ Hn1 Hn2) as En. pose proof (NilZero.isi _ Hm1 Hm2) as Em.
  rewrite H in En. rewrite En in Em. by injection Em.
Qed.

Lemma options_name_last options s x : options_name (options ++ [WithName s]) x = s.
Proof. unfold options_name. by rewrite foldl_app. Qed.

(** X12. How [New] names the pool. If the options leave a name that is
    not empty, the last [WithName] decides and the package counter is not
    touched. Otherwise (no [WithName], or an empty name) the counter is
    incremented and the pool is called "conn-pool-N" for its new value [N];
    different counter values give different names. *)
Theorem New_naming c f options w w' pid e :
  validate c = None →
  New c (Some f) options w = Done w' (Some pid, e) →
  (∃ pl, pools w' !! pid = Some pl ∧
     (options_name options "" ≠ "" →
        Name pl = options_name options "" ∧ connPoolCounter w' = connPoolCounter w) ∧
     (options_name options "" = "" →
        Name pl = default_name (connPoolCounter w + 1) ∧
        connPoolCounter w' = connPoolCounter w + 1)) ∧
  (∀ s x, options_name (options ++ [WithName s]) x = s) ∧
  (∀ n m, default_name n = default_name m → n = m).
Proof.
  intros Hv HNew. split; [|split; [intros; apply options_name_last|apply default_name_inj]].
  destruct w as [h l cl ctr]. rewrite (New_unfold c f options h l cl ctr Hv) in HNew.
  unfold bind in HNew. rewrite start_fresh, addConnections_fresh in HNew.
  match type of HNew with context [addConnections_loop _ _ ?x] => set (w0 := x) in * end.
  set (pl0 := set_running 1 (set_name (New_name options ctr) (p_init c f))) in *.
  assert (Hpl0 : pools w0 !! length l = Some pl0).
  { unfold w0. cbn [pools]. by rewrite (list_lookup_middle l [] _ (length l) eq_refl). }
  destruct (addConnections_loop (Z.to_nat (MinSize c)) (length l) w0)
    as [w1 e1| | |] eqn:Hrun; try discriminate.
  destruct (addConnections_loop_rest _ _ pl0 w0 w1 _ Hpl0 Hrun) as (pl & Hpl & Hnm & _).
  destruct (addConnections_loop_world _ _ w0 w1 _ Hrun) as [_ Hctr].
  assert (w' = w1 ∧ pid = length l) as [-> ->].
  { destruct e1; unfold ret in HNew; by injection HNew as <- <-. }
  exists pl. split; [exact Hpl|]. unfold Name. rewrite Hnm, Hctr.
  cbn [name pl0 set_running set_name connPoolCounter w0].
  unfold New_name, New_counter.
  split; intros Hgiven.
  - apply String.eqb_neq in Hgiven. by rewrite Hgiven.
  - apply String.eqb_eq in Hgiven. rewrite Hgiven. by unfold_counters.
Qed.

Lemma New_naming_witness :
  ∃ pl, pools w_new !! 0%nat = Some pl ∧ Name pl = "conn-pool-1" ∧
        connPoolCounter w_new = 1.
Proof.
  destruct (New_naming cfg_test dial_ok [] init_world w_new 0%nat None eq_refl eq_refl)
    as [(pl & Hpl & _ & Hdef) _].
  exists pl. split; [exact Hpl|]. exact (Hdef eq_refl).
Defined.

(** ** Stop drains the idle buffer *)






(** ** Wrappers go back to the pool that made them *)

Section ownership.

Lemma owned_upd_pool pid f w :
  owned w →
  (∀ pl q a, pools w !! pid = Some pl → conns (f pl) = Some q → a ∈ q →
     (∃ q0, conns pl = Some q0 ∧ a ∈ q0) ∨ (∃ c, heap w !! a = Some c ∧ p c = pid)) →
  owned (with_pools (alter f pid) w).
Proof.
  intros Ho Hf j pl q a Hpl Hq Ha. cbn in Hpl |- *.
  destruct (decide (j = pid)) as [->|Hne].
  - rewrite list_lookup_alter_eq in Hpl.
    destruct (pools w !! pid) as [pl0|] eqn:E; [|discriminate Hpl].
    cbn in Hpl. injection Hpl as <-.
    destruct (Hf pl0 q a eq_refl Hq Ha) as [(q0 & Hq0 & Ha0)|H]; [|exact H].
    by apply (Ho pid pl0 q0 a).
  - rewrite list_lookup_alter_ne in Hpl by congruence. by apply (Ho j pl q a).
Qed.

Lemma owned_same pid f w :
  (∀ pl, conns (f pl) = conns pl) → owned w → owned (with_pools (alter f pid) w).
Proof.
  intros Hf Ho. apply owned_upd_pool; [exact Ho|].
  intros pl q a _ Hq Ha. left. exists q. by rewrite <- Hf.
Qed.

Lemma owned_heap w w' :
  pools w' = pools w →
  (∀ a c, heap w !! a = Some c → ∃ c', heap w' !! a = Some c' ∧ p c' = p c) →
  owned w → owned w'.
Proof.
  intros Hp Hh Ho pid pl q a Hpl Hq Ha. rewrite Hp in Hpl.
  destruct (Ho pid pl q a Hpl Hq Ha) as (c & Hc & Hpc).
  destruct (Hh a c Hc) as (c' & Hc' & E). exists c'. split; [exact Hc'|congruence].
Qed.

Lemma owned_closed f w : owned w → owned (with_closed f w).
Proof. apply owned_heap; [reflexivity|]. intros a c Hc. by exists c. Qed.

Lemma owned_counter f w : owned w → owned (with_counter f w).
Proof. apply owned_heap; [reflexivity|]. intros a c Hc. by exists c. Qed.

Lemma owned_alloc c w : owned w → owned (with_heap (λ h, h ++ [c]) w).
Proof.
  apply owned_heap; [reflexivity|]. intros a c' Hc'. exists c'.
  split; [|reflexivity]. cbn. by apply lookup_app_l_Some.
Qed.

Lemma owned_upd_conn a f w :
  (∀ c, p (f c) = p c) → owned w → owned (with_heap (alter f a) w).
Proof.
  intros Hf. apply owned_heap; [reflexivity|]. intros a0 c Hc. cbn.
  destruct (decide (a0 = a)) as [->|Hne].
  - exists (f c). by rewrite list_lookup_alter_eq, Hc.
  - exists c. by rewrite list_lookup_alter_ne by congruence.
Qed.

Lemma owned_add_pool pl w :
  conns pl = Some [] → owned w → owned (with_pools (λ l, l ++ [pl]) w).
Proof.
  intros Hnil Ho pid pl' q a Hpl' Hq Ha. cbn in Hpl' |- *.
  apply lookup_app_Some in Hpl' as [Hpl'|[_ Hpl']]; [by apply (Ho pid pl' q a)|].
  destruct (pid - length (pools w))%nat; [|discriminate Hpl'].
  injection Hpl' as <-. rewrite Hnil in Hq. injection Hq as <-.
  by apply not_elem_of_nil in Ha.
Qed.

Lemma addConnections_loop_owned n pid w :
  owned w → wp (addConnections_loop n pid) (λ _ w', owned w') w.
Proof.
  revert w. induction n as [|n IH]; intros w Ho; simpl; [by rewrite wp_ret|].
  rewrite wp_bind. apply wp_the_pool. intros pl Hpl.
  destruct (val (size (pstats pl)) >=? MaxSize (cfg pl)); [by rewrite wp_ret|].
  rewrite wp_bind, wp_upd_pool.
  assert (Ho1 : owned (with_pools (alter (set_fcalls (S (fcalls pl))) pid) w))
    by (by apply owned_same).
  destruct (factory pl (fcalls pl)) as [c|e]; [|by rewrite wp_ret].
  rewrite wp_bind, wp_newConn, wp_bind. unfold chan_send.
  rewrite wp_bind. apply wp_the_pool. intros pl' Hpl'.
  destruct (conns pl') as [q|] eqn:Hq; [|exact I].
  destruct (Z.of_nat (length q) <? MaxSize (cfg pl')); [|exact I].
  rewrite wp_upd_pool, wp_bind, wp_upd_pool. apply IH.
  apply owned_same; [done|]. apply owned_upd_pool; [by apply owned_alloc|].
  intros pl0 q0 a Hpl0 Hq0 Ha. rewrite Hpl' in Hpl0. injection Hpl0 as <-.
  cbn in Hq0. injection Hq0 as <-. apply elem_of_app in Ha as [Ha|Ha].
  - left. by exists q.
  - right. apply list_elem_of_singleton in Ha as ->. exists (fresh_conn pid c).
    split; [|reflexivity]. cbn. by apply list_lookup_middle.
Qed.

Lemma addConnections_owned n pid w :
  owned w → wp (addConnections n pid) (λ _ w', owned w') w.
Proof.
  intros Ho. unfold addConnections. rewrite wp_bind. apply wp_the_pool. intros _ _.
  by apply addConnections_loop_owned.
Qed.

Lemma get_owned fuel now pid w :
  owned w → wp (get fuel now pid) (λ res w', owned w' ∧ own_result pid res w') w.
Proof.
  revert w. induction fuel as [|fuel IH]; intros w Ho; [exact I|].
  simpl. rewrite wp_bind. apply wp_the_pool. intros pl Hpl.
  assert (Htry : wp (tryGet_with (get fuel now pid) pid)
                    (λ res w', owned w' ∧ own_result pid res w') w).
  { unfold tryGet_with. rewrite wp_bind. apply wp_the_pool. intros pl' _.
    destruct (val (size (pstats pl')) <? MaxSize (cfg pl')); [|by rewrite wp_ret].
    rewrite wp_bind. eapply wp_mono; [|by apply addConnections_owned].
    intros [e|] w' Ho'; cbn beta iota; [by rewrite wp_ret|by apply IH]. }
  destruct (conns pl) as [[|a q]|] eqn:Hq; try exact Htry.
  destruct (Ho pid pl (a :: q) a Hpl Hq ltac:(apply list_elem_of_here)) as (c & Hc & Hpc).
  assert (Ho1 : owned (with_pools (alter (set_conns (Some q)) pid) w)).
  { apply owned_upd_pool; [exact Ho|]. intros pl0 q0 a0 Hpl0 Hq0 Ha0.
    rewrite Hpl in Hpl0. injection Hpl0 as <-. cbn in Hq0. injection Hq0 as <-.
    left. exists (a :: q). split; [exact Hq|by apply list_elem_of_further]. }
  rewrite wp_bind, wp_upd_pool, wp_bind.
  erewrite wp_the_conn_eq by exact Hc.
  destruct ((lastUsed c >? 0) && (lastUsed c <? now - IdleTimeout (cfg pl))).
  - destruct (Conn c) as [r|]; [|exact I].
    rewrite wp_bind, wp_upd_pool, wp_bind.
    eapply wp_mono; [|apply IH; by apply owned_same].
    intros res w' [Ho' Hres]. rewrite wp_bind, wp_raw_close, wp_ret.
    split; [by apply owned_closed|exact Hres].
  - rewrite wp_ret. split; [exact Ho1|]. by exists c.
Qed.

Lemma updateStat_owned pid err w :
  owned w → wp (updateStat pid err) (λ _ w', owned w' ∧ heap w' = heap w) w.
Proof.
  intros Ho. unfold updateStat. rewrite wp_bind, wp_upd_pool.
  destruct err; [rewrite wp_ret|rewrite wp_upd_pool];
    (split; [|reflexivity]); repeat apply owned_same; done.
Qed.

Lemma Get_owned fuel now pid w :
  owned w → wp (Get fuel now pid) (λ res w', owned w' ∧ own_result pid res w') w.
Proof.
  intros Ho. unfold Get. rewrite wp_bind. apply wp_the_pool. intros pl Hpl.
  rewrite wp_bind.
  assert (Hclosed : wp (ret (None, Some ErrClosed))
            (λ res w', wp (updateStat pid res.2;; ret res)
                          (λ res w', owned w' ∧ own_result pid res w') w') w).
  { rewrite wp_ret, wp_bind. eapply wp_mono; [|by apply updateStat_owned].
    intros u w' [Ho' _]. by rewrite wp_ret. }
  destruct (conns pl); [|exact Hclosed].
  destruct (running pl =? 0); [exact Hclosed|].
  eapply wp_mono; [|by apply get_owned].
  intros res w' [Ho' Hres]. rewrite wp_bind.
  eapply wp_mono; [|by apply updateStat_owned].
  intros u w'' [Ho'' Hh]. rewrite wp_ret. split; [exact Ho''|].
  destruct res as [[a|] [e|]]; try exact Hres. cbn in Hres |- *. by rewrite Hh.
Qed.

Lemma MarkUnusable_owned pid c w :
  owned w → wp (MarkUnusable pid c) (λ _ w', owned w') w.
Proof.
  intros Ho. destruct c as [|a|r]; [exact Ho| |exact Ho].
  unfold MarkUnusable, markUnusable.
  rewrite !wp_bind. apply wp_the_conn. intros c Hc.
  rewrite wp_upd_conn, wp_bind. apply wp_the_pool. intros pl Hpl.
  rewrite wp_upd_pool. apply owned_same; [done|]. by apply owned_upd_conn.
Qed.

Lemma drain_owned q msgs w :
  owned w → wp (drain q msgs) (λ _ w', owned w') w.
Proof.
  revert msgs w. induction q as [|a q IH]; intros msgs w Ho; simpl.
  - by rewrite wp_ret.
  - rewrite wp_bind. apply wp_the_conn. intros c Hc.
    destruct (Conn c) as [r|]; [|by apply IH].
    rewrite wp_bind, wp_raw_close.
    destruct (ErrExternal <$> close_err r); apply IH; by apply owned_closed.
Qed.

Lemma Stop_owned pid w :
  owned w → wp (Stop pid) (λ _ w', owned w') w.
Proof.
  intros Ho. unfold Stop. rewrite wp_bind. apply wp_the_pool. intros pl Hpl.
  destruct (running pl =? 1); [|by rewrite wp_ret].
  rewrite wp_bind, wp_upd_pool, wp_bind, wp_upd_pool.
  destruct (conns pl) as [q|]; [|exact I].
  rewrite wp_bind. eapply wp_mono; [|apply drain_owned; by repeat apply owned_same].
  intros msgs w' Ho'. rewrite wp_bind, wp_upd_pool.
  assert (owned (with_pools (alter (set_conns None) pid) w')).
  { apply owned_upd_pool; [exact Ho'|]. intros pl0 q0 a0 _ Hq0. discriminate Hq0. }
  by destruct (0 <? length msgs)%nat; rewrite wp_ret.
Qed.

Lemma Close_owned now a w :
  owned w → wp (Close now a) (λ _ w', owned w') w.
Proof.
  intros Ho. unfold Close. rewrite wp_bind. apply wp_the_conn. intros c Hc.
  destruct (Conn c) as [r|] eqn:Hr; [|by rewrite wp_ret].
  unfold put. rewrite wp_bind. apply wp_the_pool. intros pl Hpl.
  rewrite wp_bind. erewrite wp_the_conn_eq by exact Hc.
  unfold isUnUsable. rewrite !wp_bind. erewrite wp_the_conn_eq by exact Hc. rewrite wp_ret.
  assert (Hclose : ∀ w1, owned w1 → wp (Conn_Close c) (λ _ w', owned w') w1).
  { intros w1 Ho1. unfold Conn_Close. rewrite Hr, wp_raw_close. by apply owned_closed. }
  assert (Hfull : wp (upd_pool (p c) (set_pstats (set_size dec));; Conn_Close c)
                     (λ _ w', owned w') w).
  { rewrite wp_bind, wp_upd_pool. apply Hclose. by apply owned_same. }
  destruct (unUsable c) eqn:Hu; [by apply Hclose|].
  destruct (conns pl) as [q|] eqn:Hq; [|exact Hfull].
  destruct (Z.of_nat (length q) <? MaxSize (cfg pl)); [|exact Hfull].
  rewrite wp_bind, wp_upd_pool, wp_bind, wp_upd_conn, wp_ret.
  apply owned_upd_conn; [done|]. apply owned_upd_pool; [exact Ho|].
  intros pl0 q0 a0 Hpl0 Hq0 Ha0. rewrite Hpl in Hpl0. injection Hpl0 as <-.
  cbn in Hq0. injection Hq0 as <-. apply elem_of_app in Ha0 as [Ha0|Ha0].
  - left. by exists q.
  - right. apply list_elem_of_singleton in Ha0 as ->. by exists c.
Qed.

Lemma start_owned pid w :
  owned w → wp (start pid) (λ _ w', owned w') w.
Proof.
  intros Ho. unfold start. rewrite wp_bind. apply wp_the_pool. intros pl Hpl.
  destruct (running pl =? 0); [|by rewrite wp_ret].
  rewrite wp_bind, wp_upd_pool. apply addConnections_owned. by apply owned_same.
Qed.

Lemma apply_options_owned options pid w :
  owned w → wp (apply_options options pid) (λ _ w', owned w') w.
Proof.
  revert w. induction options as [|[nm] options IH]; intros w Ho; simpl.
  - by rewrite wp_ret.
  - rewrite !wp_bind, wp_upd_pool, wp_ret. apply IH. by apply owned_same.
Qed.

Lemma New_owned c f options w :
  owned w → wp (New c f options) (λ _ w', owned w') w.
Proof.
  intros Ho. unfold New. destruct f as [f|]; [|by rewrite wp_ret].
  destruct (validate c) as [e|] eqn:Hv; [by rewrite wp_ret|].
  rewrite wp_bind. unfold wp at 1, alloc_pool.
  rewrite wp_bind. eapply wp_mono; [|apply apply_options_owned; by apply owned_add_pool].
  intros [e|] w1 Ho1; [by rewrite wp_ret|].
  rewrite wp_bind. apply wp_the_pool. intros pl Hpl. rewrite wp_bind.
  assert (Hstart : ∀ w2, owned w2 →
            wp (do err <- start (length (pools w));
                match err with
                | Some _ => ret (Some (length (pools w)), @None error)
                | None => ret (Some (length (pools w)), @None error)
                end) (λ _ w', owned w') w2).
  { intros w2 Ho2. rewrite wp_bind. eapply wp_mono; [|by apply start_owned].
    intros [e|] w3 Ho3; by rewrite wp_ret. }
  destruct (String.eqb (name pl) "").
  - rewrite wp_bind. unfold wp at 1, connPoolCounter_inc.
    rewrite wp_upd_pool. apply Hstart. apply owned_same; [done|]. by apply owned_counter.
  - rewrite wp_ret. by apply Hstart.
Qed.

Lemma exec_owned c w :
  owned w → wp (exec c) (λ _ w', owned w') w.
Proof.
  intros Ho. destruct c as [c f o|fuel now pid|now a|pid c|pid]; cbn [exec].
  - rewrite wp_bind. eapply wp_mono; [|by apply New_owned]. intros. by rewrite wp_ret.
  - rewrite wp_bind. eapply wp_mono; [|by apply Get_owned]. intros ? ? [? _]. by rewrite wp_ret.
  - rewrite wp_bind. eapply wp_mono; [|by apply Close_owned]. intros. by rewrite wp_ret.
  - by apply MarkUnusable_owned.
  - rewrite wp_bind. eapply wp_mono; [|by apply Stop_owned]. intros. by rewrite wp_ret.
Qed.

Lemma reachable_by_owned s w : reachable_by s w → owned w.
Proof.
  induction 1 as [|w c w' _ IH _ _ Hex].
  - intros pid pl q a Hpl. discriminate Hpl.
  - exact (wp_Done (exec c) (λ _ w2, owned w2) w w' tt (exec_owned c w IH) Hex).
Qed.

End ownership.

(** X14. In every state reachable through the API, the idle buffer of a
    pool holds only allocated wrappers whose owner field is that pool: a
    wrapper never ends up idle in another pool, whatever is marked, closed
    twice or closed after [Stop]. *)
Theorem idle_buffer_holds_own_wrappers pid pl q a w :
  reachable w → pools w !! pid = Some pl → conns pl = Some q → a ∈ q →
  ∃ c, heap w !! a = Some c ∧ p c = pid.
Proof.
  intros Hreach. exact (reachable_by_owned false w Hreach pid pl q a).
Qed.

Lemma idle_buffer_holds_own_wrappers_witness :
  ∃ c, heap w_released !! 0%nat = Some c ∧ p c = 0%nat.
Proof.
  exact (idle_buffer_holds_own_wrappers 0%nat _ [0%nat] 0%nat w_released
           reachable_w_released eq_refl eq_refl (list_elem_of_here _ _)).
Defined.

(** X15. A finished [Get] on pool [pid] of a reachable world hands back
    either a wrapper and no error, or an error and no wrapper; the wrapper is
    allocated and its owner field is [pid], so that closing it releases it to
    the pool it was taken from. *)
Theorem Get_result_belongs_to_pool fuel now pid w w' res :
  reachable w → Get fuel now pid w = Done w' res →
  (∃ a c, res = (Some a, None) ∧ heap w' !! a = Some c ∧ p c = pid) ∨
  (∃ e, res = (None, Some e)).
Proof.
  intros Hreach HG.
  destruct (wp_Done _ _ _ _ _ (Get_owned fuel now pid w (reachable_by_owned false w Hreach)) HG)
    as [_ Hres].
  destruct res as [[a|] [e|]]; cbn in Hres; try done.
  - left. destruct Hres as (c & Hc & Hpc). by exists a, c.
  - right. by exists e.
Qed.

Lemma Get_result_belongs_to_pool_witness :
  (∃ a c, (Some 0%nat, @None error) = (Some a, None) ∧ heap w_got !! a = Some c ∧ p c = 0%nat) ∨
  (∃ e, (Some 0%nat, @None error) = (None, Some e)).
Proof.
  exact (Get_result_belongs_to_pool 2 t0 0%nat w_new w_got (Some 0%nat, None)
           reachable_w_new eq_refl).
Defined.

(** ** No call panics *)

Section linkage.




















End linkage.



(** ** Successes and requests *)

Section tally.

Lemma counted_upd_pool pid f w :
  counted w → (∀ pl, tally_ok pl → tally_ok (f pl)) →
  counted (with_pools (alter f pid) w).
Proof.
  intros Hc Hf j pl Hpl. cbn in Hpl. destruct (decide (j = pid)) as [->|Hne].
  - rewrite list_lookup_alter_eq in Hpl.
    destruct (pools w !! pid) as [pl0|] eqn:E; [|discriminate Hpl].
    cbn in Hpl. injection Hpl as <-. apply Hf. by apply (Hc pid).
  - rewrite list_lookup_alter_ne in Hpl by congruence. by apply (Hc j).
Qed.

Lemma counted_pools w w' : pools w' = pools w → counted w → counted w'.
Proof. intros Hp Hc j pl Hpl. rewrite Hp in Hpl. by apply (Hc j). Qed.

Ltac keeps_tally := intros ? H; exact H.

Lemma addConnections_loop_counted n pid w :
  counted w → wp (addConnections_loop n pid) (λ _ w', counted w') w.
Proof.
  revert w. induction n as [|n IH]; intros w Hc; simpl; [by rewrite wp_ret|].
  rewrite wp_bind. apply wp_the_pool. intros pl Hpl.
  destruct (val (size (pstats pl)) >=? MaxSize (cfg pl)); [by rewrite wp_ret|].
  rewrite wp_bind, wp_upd_pool.
  assert (Hc1 : counted (with_pools (alter (set_fcalls (S (fcalls pl))) pid) w))
    by (apply counted_upd_pool; [exact Hc|keeps_tally]).
  destruct (factory pl (fcalls pl)) as [c|e]; [|by rewrite wp_ret].
  rewrite wp_bind, wp_newConn, wp_bind. unfold chan_send.
  rewrite wp_bind. apply wp_the_pool. intros pl' Hpl'.
  destruct (conns pl') as [q|] eqn:Hq; [|exact I].
  destruct (Z.of_nat (length q) <? MaxSize (cfg pl')); [|exact I].
  rewrite wp_upd_pool, wp_bind, wp_upd_pool. apply IH.
  apply counted_upd_pool; [|keeps_tally]. apply counted_upd_pool; [|keeps_tally].
  revert Hc1. by apply counted_pools.
Qed.

Lemma addConnections_counted n pid w :
  counted w → wp (addConnections n pid) (λ _ w', counted w') w.
Proof.
  intros Hc. unfold addConnections. rewrite wp_bind. apply wp_the_pool. intros _ _.
  by apply addConnections_loop_counted.
Qed.

Lemma get_counted fuel now pid w :
  counted w → wp (get fuel now pid) (λ _ w', counted w') w.
Proof.
  revert w. induction fuel as [|fuel IH]; intros w Hc; [exact I|].
  simpl. rewrite wp_bind. apply wp_the_pool. intros pl Hpl.
  assert (Htry : wp (tryGet_with (get fuel now pid) pid) (λ _ w', counted w') w).
  { unfold tryGet_with. rewrite wp_bind. apply wp_the_pool. intros pl' _.
    destruct (val (size (pstats pl')) <? MaxSize (cfg pl')); [|by rewrite wp_ret].
    rewrite wp_bind. eapply wp_mono; [|by apply addConnections_counted].
    intros [e|] w' Hc'; cbn beta iota; [by rewrite wp_ret|by apply IH]. }
  destruct (conns pl) as [[|a q]|] eqn:Hq; try exact Htry.
  assert (Hc1 : counted (with_pools (alter (set_conns (Some q)) pid) w))
    by (apply counted_upd_pool; [exact Hc|keeps_tally]).
  rewrite wp_bind, wp_upd_pool, wp_bind. apply wp_the_conn. intros c Hcn.
  destruct ((lastUsed c >? 0) && (lastUsed c <? now - IdleTimeout (cfg pl)));
    [|by rewrite wp_ret].
  destruct (Conn c) as [r|]; [|exact I].
  rewrite wp_bind, wp_upd_pool, wp_bind.
  eapply wp_mono; [|apply IH; apply counted_upd_pool; [exact Hc1|keeps_tally]].
  intros res w' Hc'. rewrite wp_bind, wp_raw_close, wp_ret. revert Hc'. by apply counted_pools.
Qed.

Lemma updateStat_counted pid err w :
  counted w → wp (updateStat pid err) (λ _ w', counted w') w.
Proof.
  intros Hc. unfold updateStat. rewrite wp_bind, wp_upd_pool.
  destruct err; [rewrite wp_ret|rewrite wp_upd_pool].
  - apply counted_upd_pool; [exact Hc|]. intros pl. unfold tally_ok, Success, Request.
    cbn. unfold_counters. lia.
  - intros j pl Hpl. cbn in Hpl. destruct (decide (j = pid)) as [->|Hne].
    + rewrite !list_lookup_alter_eq in Hpl.
      destruct (pools w !! pid) as [pl0|] eqn:E; [|discriminate Hpl].
      cbn in Hpl. injection Hpl as <-. specialize (Hc pid pl0 E). revert Hc.
      unfold tally_ok, Success, Request. cbn. unfold_counters. lia.
    + rewrite !list_lookup_alter_ne in Hpl by congruence. by apply (Hc j).
Qed.

Lemma Get_counted fuel now pid w :
  counted w → wp (Get fuel now pid) (λ _ w', counted w') w.
Proof.
  intros Hc. unfold Get. rewrite wp_bind. apply wp_the_pool. intros pl Hpl.
  rewrite wp_bind.
  assert (Hclosed : wp (ret (@None addr, Some ErrClosed))
            (λ res w', wp (updateStat pid res.2;; ret res) (λ _ w', counted w') w') w).
  { rewrite wp_ret, wp_bind. eapply wp_mono; [|by apply updateStat_counted].
    intros u w' Hc'. by rewrite wp_ret. }
  destruct (conns pl); [|exact Hclosed].
  destruct (running pl =? 0); [exact Hclosed|].
  eapply wp_mono; [|by apply get_counted].
  intros res w' Hc'. rewrite wp_bind.
  eapply wp_mono; [|by apply updateStat_counted].
  intros u w'' Hc''. by rewrite wp_ret.
Qed.

Lemma MarkUnusable_counted pid c w :
  counted w → wp (MarkUnusable pid c) (λ _ w', counted w') w.
Proof.
  intros Hc. destruct c as [|a|r]; [exact Hc| |exact Hc].
  unfold MarkUnusable, markUnusable.
  rewrite !wp_bind. apply wp_the_conn. intros c Hcn.
  rewrite wp_upd_conn, wp_bind. apply wp_the_pool. intros pl Hpl.
  rewrite wp_upd_pool. apply counted_upd_pool; [|keeps_tally].
  revert Hc. by apply counted_pools.
Qed.

Lemma Stop_counted pid w :
  counted w → wp (Stop pid) (λ _ w', counted w') w.
Proof.
  intros Hc. unfold Stop. rewrite wp_bind. apply wp_the_pool. intros pl Hpl.
  destruct (running pl =? 1); [|by rewrite wp_ret].
  rewrite wp_bind, wp_upd_pool, wp_bind, wp_upd_pool.
  destruct (conns pl) as [q|]; [|exact I].
  rewrite wp_bind. eapply wp_mono; [|apply drain_frame].
  intros msgs w' [Hp' _]. rewrite wp_bind, wp_upd_pool.
  assert (counted (with_pools (alter (set_conns None) pid) w')).
  { apply counted_upd_pool; [|keeps_tally]. apply (counted_pools _ _ Hp').
    apply counted_upd_pool; [by apply counted_upd_pool; [|keeps_tally]|].
    intros pl' _. unfold tally_ok, Success, Request. cbn. unfold_counters. lia. }
  by destruct (0 <? length msgs)%nat; rewrite wp_ret.
Qed.

Lemma Close_counted now a w :
  counted w → wp (Close now a) (λ _ w', counted w') w.
Proof.
  intros Hc. unfold Close. rewrite wp_bind. apply wp_the_conn. intros c Hcn.
  destruct (Conn c) as [r|] eqn:Hr; [|by rewrite wp_ret].
  unfold put. rewrite wp_bind. apply wp_the_pool. intros pl Hpl.
  rewrite wp_bind. erewrite wp_the_conn_eq by exact Hcn.
  unfold isUnUsable. rewrite !wp_bind. erewrite wp_the_conn_eq by exact Hcn. rewrite wp_ret.
  assert (Hclose : ∀ w1, counted w1 → wp (Conn_Close c) (λ _ w', counted w') w1).
  { intros w1 Hc1. unfold Conn_Close. rewrite Hr, wp_raw_close. revert Hc1.
    by apply counted_pools. }
  assert (Hfull : wp (upd_pool (p c) (set_pstats (set_size dec));; Conn_Close c)
                     (λ _ w', counted w') w).
  { rewrite wp_bind, wp_upd_pool. apply Hclose. apply counted_upd_pool; [exact Hc|keeps_tally]. }
  destruct (unUsable c) eqn:Hu; [by apply Hclose|].
  destruct (conns pl) as [q|] eqn:Hq; [|exact Hfull].
  destruct (Z.of_nat (length q) <? MaxSize (cfg pl)); [|exact Hfull].
  rewrite wp_bind, wp_upd_pool, wp_bind, wp_upd_conn, wp_ret.
  apply (counted_pools (with_pools (alter (set_conns (Some (q ++ [a]))) (p c)) w));
    [reflexivity|].
  apply counted_upd_pool; [exact Hc|keeps_tally].
Qed.

Lemma New_counted c f options w :
  counted w → wp (New c f options) (λ _ w', counted w') w.
Proof.
  intros Hc. destruct f as [f|]; [|exact Hc].
  destruct (validate c) as [e|] eqn:Hv; [unfold New; by rewrite Hv|].
  destruct w as [h l cl ctr]. unfold wp. rewrite (New_unfold c f options h l cl ctr Hv).
  unfold bind at 1. rewrite start_fresh, addConnections_fresh.
  match goal with
  | |- context [addConnections_loop ?n ?j ?x] =>
      assert (H : wp (addConnections_loop n j) (λ _ w', counted w') x)
  end.
  { apply addConnections_loop_counted. intros j pl Hpl. cbn in Hpl.
    apply lookup_app_Some in Hpl as [Hpl|[_ Hpl]]; [by apply (Hc j)|].
    destruct (j - length l)%nat; [|discriminate Hpl]. injection Hpl as <-.
    unfold tally_ok, Success, Request. cbn. unfold_counters. lia. }
  unfold wp in H.
  match goal with
  | |- context [addConnections_loop ?n ?j ?x] => destruct (addConnections_loop n j x) as [w' [e|]| | |]
  end; exact H || exact I.
Qed.

Lemma exec_counted c w :
  counted w → wp (exec c) (λ _ w', counted w') w.
Proof.
  intros Hc. destruct c as [c f o|fuel now pid|now a|pid c|pid]; cbn [exec].
  - rewrite wp_bind. eapply wp_mono; [|by apply New_counted]. intros. by rewrite wp_ret.
  - rewrite wp_bind. eapply wp_mono; [|by apply Get_counted]. intros. by rewrite wp_ret.
  - rewrite wp_bind. eapply wp_mono; [|by apply Close_counted]. intros. by rewrite wp_ret.
  - by apply MarkUnusable_counted.
  - rewrite wp_bind. eapply wp_mono; [|by apply Stop_counted]. intros. by rewrite wp_ret.
Qed.

End tally.

(** X17. In every state reachable through the API, and for every pool,
    [Success] never exceeds [Request]: each [Get] counts one request and at
    most one success, [Stop] resets both, and nothing else touches them. *)
Theorem Success_le_Request s w pid pl :
  reachable_by s w → pools w !! pid = Some pl → Success pl ≤ Request pl.
Proof.
  intros Hreach. revert pid pl. change (counted w).
  induction Hreach as [|w c w' _ IH _ _ Hex].
  - intros pid pl Hpl. discriminate Hpl.
  - exact (wp_Done (exec c) (λ _ w2, counted w2) w w' tt (exec_counted c w IH) Hex).
Qed.

Lemma Success_le_Request_witness :
  ∃ pl, pools w_got !! 0%nat = Some pl ∧ Success pl ≤ Request pl.
Proof.
  eexists. split; [reflexivity|].
  exact (Success_le_Request false w_got 0%nat _ reachable_w_got eq_refl).
Defined.
